(** * Things To Buy: the wishlist persistence layer and its handlers

    A shallow embedding of [src/utils/indexedDB.js] and of the handlers of
    [src/App.jsx], with the properties of the persistence contract.

    - JavaScript strings are sequences of UTF-16 code units ([jsstring]).
    - The object store 'items' is a finite map from key to record; its key
      path is the record's [id].
    - The browser is a [World]: the committed contents of the object store,
      the legacy localStorage slot, the console, the React state, and a
      schedule of verdicts saying which of the coming storage-engine
      requests fail.
    - An async function is a computation over the world whose promise is
      [Resolved], [Rejected] or stays [Pending] for ever. *)

From Stdlib Require Import ZArith NArith List String Ascii Lia.
From Stdlib Require Import Floats.SpecFloat.
From stdpp Require Import base option list sorting gmap.

Local Open Scope Z_scope.

(** ** Strings *)

(** A JavaScript string: its UTF-16 code units. *)
Definition jsstring := list N.

(** An ASCII literal as a JavaScript string. *)
Definition lit (s : string) : jsstring :=
  List.map N_of_ascii (list_ascii_of_string s).

(** WhiteSpace and LineTerminator code points of ECMAScript, the ones
    [String.prototype.trim] removes. All of them lie in the basic plane. *)
Definition isWhiteSpace (c : N) : bool :=
  ((9 <=? c) && (c <=? 13) || (c =? 32) || (c =? 160) || (c =? 5760)
   || (8192 <=? c) && (c <=? 8202) || (c =? 8232) || (c =? 8233)
   || (c =? 8239) || (c =? 8287) || (c =? 12288) || (c =? 65279))%N.

Fixpoint trimStart (s : jsstring) : jsstring :=
  match s with
  | c :: s' => if isWhiteSpace c then trimStart s' else s
  | [] => []
  end.

Definition trimEnd (s : jsstring) : jsstring := rev (trimStart (rev s)).

(** [s.trim()] *)
Definition trim (s : jsstring) : jsstring := trimEnd (trimStart s).

(** Truthiness of a string: every string but the empty one. *)
Definition truthy (s : jsstring) : bool :=
  match s with [] => false | _ :: _ => true end.

(** ** The data model *)

(** [{ id, name, link, price, bought }] *)
Record Item : Type := mkItem {
  id : Z;
  name : jsstring;
  link : jsstring;
  price : jsstring;
  bought : bool
}.

(** The object store 'items' ([keyPath: 'id'], no key generator). *)
Abbreviation Store := (gmap Z Item).

(** [store.put(item)]: the key is read from the record, and a record with
    the same key is overwritten. *)
Definition put (s : Store) (item : Item) : Store := <[id item := item]> s.

(** The contents after putting the records of a list in order into the
    cleared store. *)
Definition store_of_items (items : list Item) : Store :=
  fold_left put items ∅.

Global Instance Item_eq_dec : EqDecision Item.
Proof. solve_decision. Defined.

(** Order of the keys: [getAll] hands the records back in ascending key
    order. *)
Definition key_le (a b : Item) : Prop := id a <= id b.

Global Instance key_le_dec a b : Decision (key_le a b).
Proof. unfold key_le. apply _. Defined.

(** [store.getAll()] *)
Definition getAll (s : Store) : list Item :=
  merge_sort key_le (map_to_list s).*2.

(** Every record sits under its own key. [put] keeps this, and so does
    every operation of the persistence layer. *)
Definition keyed (s : Store) : Prop :=
  ∀ k item, s !! k = Some item → id item = k.

(** ** The React state of [App] *)

(** [formData] and [editData]: [{ name, link, price }] *)
Record Form : Type := mkForm {
  form_name : jsstring;
  form_link : jsstring;
  form_price : jsstring
}.

Definition blank_form : Form := mkForm [] [] [].

Record AppState : Type := mkApp {
  items : list Item;
  isLoading : bool;
  formData : Form;
  editingId : option Z;
  editData : Form
}.

(** The state of the first render. *)
Definition initial_app : AppState :=
  mkApp [] true blank_form None blank_form.

(** ** Errors, the world and promises *)

Inductive error : Type :=
| OpenFailed         (* 'Failed to open IndexedDB' *)
| GetFailed          (* 'Failed to get items from IndexedDB' *)
| SaveFailed         (* 'Failed to save item to IndexedDB' *)
| DeleteFailed       (* 'Failed to delete item from IndexedDB' *)
| AddFailed          (* 'Failed to add item' *)
| ClearFailed        (* 'Failed to clear IndexedDB' *)
| TransactionFailed  (* 'Transaction failed' *)
| SyntaxError.       (* thrown by JSON.parse *)

Record World : Type := mkWorld {
  store : Store;                    (* committed contents of 'items' *)
  legacy : option jsstring;         (* localStorage['wishlistItems'] *)
  console : list (string * error);  (* console.error calls, oldest first *)
  sched : list bool;                (* coming engine verdicts, true = fails *)
  app : AppState
}.

Definition set_store (s : Store) (w : World) : World :=
  mkWorld s (legacy w) (console w) (sched w) (app w).
Definition set_legacy (l : option jsstring) (w : World) : World :=
  mkWorld (store w) l (console w) (sched w) (app w).
Definition set_console (c : list (string * error)) (w : World) : World :=
  mkWorld (store w) (legacy w) c (sched w) (app w).
Definition set_sched (f : list bool) (w : World) : World :=
  mkWorld (store w) (legacy w) (console w) f (app w).
Definition set_app (a : AppState) (w : World) : World :=
  mkWorld (store w) (legacy w) (console w) (sched w) a.

(** How a promise ends. [Pending] is the promise nobody ever settles. *)
Inductive outcome (A : Type) : Type :=
| Resolved (a : A)
| Rejected (e : error)
| Pending.
Arguments Resolved {A} a.
Arguments Rejected {A} e.
Arguments Pending {A}.

(** An asynchronous computation. *)
Definition M (A : Type) : Type := World → outcome A * World.

Definition ret {A} (a : A) : M A := λ w, (Resolved a, w).
Definition throw {A} (e : error) : M A := λ w, (Rejected e, w).
Definition hang {A} : M A := λ w, (Pending, w).

(** [await c] followed by [k]. *)
Definition bind {A B} (c : M A) (k : A → M B) : M B :=
  λ w, match c w with
       | (Resolved a, w') => k a w'
       | (Rejected e, w') => (Rejected e, w')
       | (Pending, w') => (Pending, w')
       end.

Notation "'await' x ':=' c 'in' k" := (bind c (λ x, k))
  (at level 10, x name, c at level 100, k at level 200,
   format "'[v' 'await'  x  ':='  c  'in' '/' k ']'").
Notation "'await_' c 'in' k" := (bind c (λ _, k))
  (at level 10, c at level 100, k at level 200,
   format "'[v' 'await_'  c  'in' '/' k ']'").

(** [try { c } catch (e) { h e }] *)
Definition try_catch {A} (c : M A) (h : error → M A) : M A :=
  λ w, match c w with
       | (Rejected e, w') => h e w'
       | r => r
       end.

(** [try { c } finally { f }], for an [f] that completes normally. A
    block that never completes never reaches its [finally]. *)
Definition try_finally {A} (c : M A) (f : M unit) : M A :=
  λ w, match c w with
       | (Pending, w') => (Pending, w')
       | (r, w') => (r, snd (f w'))
       end.

(** An async function whose body ends in [return p] for a promise [p] it
    does not await: the function's own promise takes over the state of [p].
    The body has returned by then, so a rejection of [p] reaches no
    [catch] of the body. *)
Definition adopt {A} (body : M (M A)) : M A := await p := body in p.

Definition get {A} (f : World → A) : M A := λ w, (Resolved (f w), w).
Definition modify (f : World → World) : M unit := λ w, (Resolved tt, f w).

(** [console.error(label, e)] *)
Definition console_error (label : string) (e : error) : M unit :=
  modify (λ w, set_console (console w ++ [(label, e)]) w).

(** The engine's verdict on the next request: [true] when it fails. A
    schedule that has run out lets everything succeed. *)
Definition verdict : M bool :=
  λ w, match sched w with
       | b :: rest => (Resolved b, set_sched rest w)
       | [] => (Resolved false, w)
       end.

(** A request on a transaction: it fails with [e] or yields [a]. *)
Definition request {A} (e : error) (a : A) : M A :=
  await failed := verdict in if failed : bool then throw e else ret a.

(** ** The persistence layer ([src/utils/indexedDB.js]) *)

(** [initDB]: the open request fails ([onerror]) or hands back the
    database ([onsuccess]). The upgrade handler provisions 'items' the
    first time; a store not yet provisioned and an empty one have the same
    contents, so [store] covers both. *)
Definition initDB : M unit := request OpenFailed tt.

(** A transaction works on a copy of the store's contents. Its requests
    are answered one after the other. A request that fails fires an error
    event that nobody cancels, and that aborts the transaction: the copy is
    dropped and the committed contents stay as they were. *)

(** The end of a read-write transaction whose requests all succeeded: it
    commits the working copy [t], or the commit fails and the transaction
    is aborted ([abort] event, contents as before). The result says
    whether it completed. *)
Definition commit (t : Store) : M bool :=
  await failed := verdict in
  if failed : bool then ret false
  else await_ modify (set_store t) in ret true.

(** The promise of [getAllItems]: a read-only transaction with one
    [getAll] request, resolved with [request.result || []]. *)
Definition getAllItems_promise : M (list Item) :=
  await t := get store in
  request GetFailed (getAll t).

(** [getAllItems]. The [try] covers [await initDB()]; the promise is
    returned from inside the [try] without being awaited. *)
Definition getAllItems : M (list Item) :=
  adopt
    (try_catch
       (await_ initDB in ret getAllItems_promise)
       (λ e, await_ console_error "Error getting items:" e in
             ret (ret []))).

(** The promise of [saveItem]: one [put], resolved when the request
    succeeds; the transaction commits afterwards. *)
Definition saveItem_promise (item : Item) : M Z :=
  await t := get store in
  await t' := request SaveFailed (put t item) in
  await_ commit t' in
  ret (id item).

(** [saveItem] *)
Definition saveItem (item : Item) : M Z :=
  adopt
    (try_catch
       (await_ initDB in ret (saveItem_promise item))
       (λ e, await_ console_error "Error saving item:" e in throw e)).

(** The promise of [deleteItem]: one [delete], resolved when the request
    succeeds; the transaction commits afterwards. *)
Definition deleteItem_promise (k : Z) : M unit :=
  await t := get store in
  await t' := request DeleteFailed (delete k t) in
  await_ commit t' in
  ret tt.

(** [deleteItem] *)
Definition deleteItem (k : Z) : M unit :=
  adopt
    (try_catch
       (await_ initDB in ret (deleteItem_promise k))
       (λ e, await_ console_error "Error deleting item:" e in throw e)).

(** [items.map(item => new Promise(... store.put(item) ...))] followed by
    [Promise.all]: the puts are answered in order on the working copy, and
    the first one that fails rejects with 'Failed to add item'. *)
Fixpoint put_all (items : list Item) (t : Store) : M Store :=
  match items with
  | [] => ret t
  | item :: rest =>
      await t' := request AddFailed (put t item) in
      put_all rest t'
  end.

(** The promise of [saveAllItems]: [clear], then the puts, all in one
    read-write transaction. Once [Promise.all] has resolved the handlers
    [oncomplete] and [onerror] are installed: the promise resolves when the
    transaction completes. No request is left that could fire [onerror],
    and a commit that fails fires [abort], for which there is no handler:
    the promise then stays pending. *)
Definition saveAllItems_promise (items : list Item) : M unit :=
  await t0 := request ClearFailed (∅ : Store) in
  await t := put_all items t0 in
  await completed := commit t in
  if completed : bool then ret tt else hang.

(** [saveAllItems] *)
Definition saveAllItems (items : list Item) : M unit :=
  adopt
    (try_catch
       (await_ initDB in ret (saveAllItems_promise items))
       (λ e, await_ console_error "Error saving all items:" e in throw e)).

(** ** The handlers of [App] ([src/App.jsx]) *)

Definition set_items (l : list Item) (a : AppState) : AppState :=
  mkApp l (isLoading a) (formData a) (editingId a) (editData a).
Definition set_isLoading (b : bool) (a : AppState) : AppState :=
  mkApp (items a) b (formData a) (editingId a) (editData a).
Definition set_formData (f : Form) (a : AppState) : AppState :=
  mkApp (items a) (isLoading a) f (editingId a) (editData a).
Definition set_editingId (k : option Z) (a : AppState) : AppState :=
  mkApp (items a) (isLoading a) (formData a) k (editData a).
Definition set_editData (f : Form) (a : AppState) : AppState :=
  mkApp (items a) (isLoading a) (formData a) (editingId a) f.

(** [setItems(prev => f prev)] *)
Definition setItems (f : list Item → list Item) : M unit :=
  modify (λ w, set_app (set_items (f (items (app w))) (app w)) w).

(** [setIsLoading(b)] *)
Definition setIsLoading (b : bool) : M unit :=
  modify (λ w, set_app (set_isLoading b (app w)) w).

(** The three inputs of a form, told apart by [e.target.name]. *)
Inductive field : Type := FName | FLink | FPrice.

(** [{ ...prev, [name]: value }] *)
Definition set_field (f : field) (value : jsstring) (prev : Form) : Form :=
  match f with
  | FName => mkForm value (form_link prev) (form_price prev)
  | FLink => mkForm (form_name prev) value (form_price prev)
  | FPrice => mkForm (form_name prev) (form_link prev) value
  end.

Definition handleInputChange (f : field) (value : jsstring)
    (a : AppState) : AppState :=
  set_formData (set_field f value (formData a)) a.

Definition handleEditChange (f : field) (value : jsstring)
    (a : AppState) : AppState :=
  set_editData (set_field f value (editData a)) a.

(** [d.name.trim() && d.link.trim() && d.price.trim()] as a condition *)
Definition filled (d : Form) : bool :=
  truthy (trim (form_name d)) && truthy (trim (form_link d))
  && truthy (trim (form_price d)).

(** [handleAddItem]; [now] is the value of [Date.now()]. *)
Definition handleAddItem (now : Z) (a : AppState) : AppState :=
  if filled (formData a) then
    let newItem :=
      mkItem now (trim (form_name (formData a))) (trim (form_link (formData a)))
             (trim (form_price (formData a))) false in
    set_formData blank_form (set_items (items a ++ [newItem]) a)
  else a.

Definition handleStartEdit (item : Item) (a : AppState) : AppState :=
  set_editData (mkForm (name item) (link item) (price item))
    (set_editingId (Some (id item)) a).

(** The record an edit leaves in place of [item]:
    [{ ...item, name: .., link: .., price: .. }] *)
Definition edited (d : Form) (item : Item) : Item :=
  mkItem (id item) (trim (form_name d)) (trim (form_link d))
         (trim (form_price d)) (bought item).

(** [handleSaveEdit] *)
Definition handleSaveEdit (k : Z) (a : AppState) : AppState :=
  if filled (editData a) then
    set_editData blank_form
      (set_editingId None
         (set_items
            ((λ item, if decide (id item = k)
                      then edited (editData a) item else item)
               <$> items a)
            a))
  else a.

Definition handleCancelEdit (a : AppState) : AppState :=
  set_editData blank_form (set_editingId None a).

(** [handleToggleBought] *)
Definition handleToggleBought (k : Z) (a : AppState) : AppState :=
  set_items
    ((λ item, if decide (id item = k)
              then mkItem (id item) (name item) (link item)
                          (price item) (negb (bought item))
              else item)
       <$> items a)
    a.

(** [prev.filter(item => item.id !== id)] *)
Definition without (k : Z) (prev : list Item) : list Item :=
  filter (λ item, id item ≠ k) prev.

(** [handleDeleteItem] *)
Definition handleDeleteItem (k : Z) : M unit :=
  try_catch
    (await_ deleteItem k in
     setItems (without k))
    (λ e, await_ console_error "Error deleting item:" e in
          (* Still update UI even if DB operation fails *)
          setItems (without k)).

(** The effect that saves after a change of [items], as it runs when its
    timer fires. *)
Definition saveItems : M unit :=
  await a := get app in
  if isLoading a then ret tt
  else try_catch (saveAllItems (items a))
                 (λ e, console_error "Error saving items:" e).

(** *** The total of what is still to buy *)

Definition isDigit (c : N) : bool := ((48 <=? c) && (c <=? 57))%N.

(** The characters [/[^0-9.]/] does not match. *)
Definition isPriceChar (c : N) : bool := isDigit c || (c =? 46)%N.

(** [price.replace(/[^0-9.]/g, '')] *)
Definition strip (s : jsstring) : jsstring := List.filter isPriceChar s.

(** The longest prefix of digits, and what follows it. *)
Fixpoint span_digits (s : jsstring) : jsstring * jsstring :=
  match s with
  | c :: s' =>
      if isDigit c then let (ds, r) := span_digits s' in (c :: ds, r)
      else ([], s)
  | [] => ([], [])
  end.

(** The number a sequence of decimal digits denotes. *)
Definition digits_value (ds : jsstring) : Z :=
  fold_left (λ n c, 10 * n + (Z.of_N c - 48)) ds 0.

(** A Number: an IEEE 754 binary64 value. *)
Abbreviation number := spec_float.
Definition prec : Z := 53.
Definition emax : Z := 1024.

Definition NaN : number := S754_nan.
Definition zero : number := S754_zero false.

(** [x + y], rounded to nearest, ties to even. *)
Definition add (x y : number) : number := SFadd prec emax x y.

(** The Number of the decimal [n / 10^k], for [n] not negative: the
    correctly rounded quotient of the two integers. *)
Definition of_decimal (n : Z) (k : nat) : number :=
  match n with
  | Zpos p =>
      SFdiv prec emax (S754_finite false p 0)
            (S754_finite false (Z.to_pos (10 ^ Z.of_nat k)) 0)
  | _ => zero
  end.

(** [parseFloat], on the strings the call site passes: [strip] leaves
    digits and dots only, so no sign, exponent or 'Infinity' occurs, and
    the longest prefix that is a decimal literal is [digits], [digits.],
    [digits.digits] or [.digits]. Without such a prefix the result is
    [NaN]. *)
Definition parseFloat (s : jsstring) : number :=
  let (ip, r) := span_digits (trimStart s) in
  let fp := match r with
            | 46%N :: r' => fst (span_digits r')
            | _ => []
            end in
  match ip, fp with
  | [], [] => NaN
  | _, _ => of_decimal (digits_value (ip ++ fp)) (length fp)
  end.

(** [x || 0] for a Number [x]: [NaN] and the zeros are falsy. *)
Definition or_zero (x : number) : number :=
  match x with
  | S754_nan | S754_zero _ => zero
  | _ => x
  end.

(** [parseFloat(item.price.replace(/[^0-9.]/g, '')) || 0] *)
Definition price_value (item : Item) : number :=
  or_zero (parseFloat (strip (price item))).

(** [calculateTotal] *)
Definition calculateTotal (l : list Item) : number :=
  fold_left (λ total item, add total (price_value item))
            (filter (λ item, bought item = false) l) zero.

Definition needToBuyItems (l : list Item) : list Item :=
  filter (λ item, bought item = false) l.
Definition boughtItems (l : list Item) : list Item :=
  filter (λ item, bought item = true) l.

(** *** Startup *)

Section Startup.

(** [JSON.parse] on the contents of the legacy slot, which by the legacy
    interface is a JSON-encoded array of records: [None] when the text is
    not JSON and [JSON.parse] throws. *)
Variable JSON_parse : jsstring → option (list Item).

Definition parse (s : jsstring) : M (list Item) :=
  match JSON_parse s with
  | Some l => ret l
  | None => throw SyntaxError
  end.

(** The migration from localStorage, the body of
    [if (loadedItems.length === 0)]. *)
Definition migrate : M unit :=
  await savedItems := get legacy in
  match savedItems with
  | Some s =>
      if truthy s then
        await parsedItems := parse s in
        if (0 <? length parsedItems)%nat then
          await_ saveAllItems parsedItems in
          await_ setItems (λ _, parsedItems) in
          (* Clear localStorage after migration *)
          modify (set_legacy None)
        else ret tt
      else ret tt
  | None => ret tt
  end.

(** [loadItems], the effect of the first render. *)
Definition loadItems : M unit :=
  try_finally
    (try_catch
       (await_ setIsLoading true in
        await loadedItems := getAllItems in
        await_ setItems (λ _, loadedItems) in
        if (length loadedItems =? 0)%nat then migrate else ret tt)
       (λ e, console_error "Error loading items:" e))
    (setIsLoading false).

(** The slot is absent, or holds text that [JSON.parse] rejects, or holds
    the empty list. *)
Definition nothing_to_import (slot : option jsstring) : Prop :=
  slot = None
  ∨ (∃ s, slot = Some s ∧ JSON_parse s = None)
  ∨ (∃ s, slot = Some s ∧ JSON_parse s = Some []).

End Startup.

(** ** Sample data *)

Definition headphones : Item :=
  mkItem 1000 (lit "Headphones") (lit "https://shop.example/headphones")
         (8377%N :: lit "1,299") false.

Definition television : Item :=
  mkItem 1001 (lit "Television") (lit "https://shop.example/tv")
         (8377%N :: lit "2,500") true.

Definition lamp : Item :=
  mkItem 7 (lit "Lamp") (lit "https://shop.example/lamp") (lit "40") false.

(** A string literal of JSON; 34 is the double quote. *)
Definition quoted (s : jsstring) : jsstring := 34%N :: s ++ [34%N].

(** The text of a legacy slot that holds [[headphones]]. *)
Definition legacy_text : jsstring :=
  lit "[{" ++ quoted (lit "id") ++ lit ":1000,"
  ++ quoted (lit "name") ++ lit ":" ++ quoted (name headphones) ++ lit ","
  ++ quoted (lit "link") ++ lit ":" ++ quoted (link headphones) ++ lit ","
  ++ quoted (lit "price") ++ lit ":" ++ quoted (price headphones) ++ lit ","
  ++ quoted (lit "bought") ++ lit ":false}]".

(** [JSON.parse] as far as the samples need it: it reads [legacy_text] and
    the empty array, and rejects every other text. *)
Definition sample_parse (s : jsstring) : option (list Item) :=
  if decide (s = legacy_text) then Some [headphones]
  else if decide (s = lit "[]") then Some []
  else None.

(** A first visit after the move to IndexedDB: nothing in the store, the
    list still in localStorage; [f] is what the engine will do. *)
Definition legacy_world (f : list bool) : World :=
  mkWorld ∅ (Some legacy_text) [] f initial_app.

(** A later visit, with [l] in the store. *)
Definition stored_world (l : list Item) (slot : option jsstring)
    (f : list bool) : World :=
  mkWorld (store_of_items l) slot [] f initial_app.

(** The state while the item of id 1000 is being edited. *)
Definition editing_app : AppState :=
  mkApp [headphones; television] false blank_form (Some 1000)
        (mkForm (lit " Earbuds ") (lit "https://shop.example/earbuds")
                (lit " 999 ")).

(** The state with [d] typed into the form. *)
Definition typing_app (d : Form) : AppState :=
  mkApp [headphones] false d None blank_form.

(** ** Vocabulary of the properties *)

(** The next [n] requests of the engine succeed. *)
Definition quiet (n : nat) (w : World) : Prop :=
  forallb negb (take n (sched w)) = true.

(** What the persistence layer never touches: the legacy slot and the
    React state. *)
Definition same_page (w w' : World) : Prop :=
  legacy w' = legacy w ∧ app w' = app w.

(** All but the schedule stays. *)
Definition same_but_sched (w w' : World) : Prop :=
  store w' = store w ∧ legacy w' = legacy w ∧ console w' = console w
  ∧ app w' = app w.

(** The committed contents stay. *)
Definition same_store (w w' : World) : Prop := store w' = store w.

(** A Number whose sign bit, when it has one, is clear. *)
Definition nonneg (x : number) : Prop :=
  match x with
  | S754_zero sx | S754_infinity sx | S754_finite sx _ _ => sx = false
  | S754_nan => True
  end.

(** [c] moves the world only along the relation [R]. *)
Definition keeps {A} (R : relation World) (c : M A) : Prop :=
  ∀ w, R w (snd (c w)).

(** [c] neither reads nor writes the React state. *)
Definition oblivious {A} (c : M A) : Prop :=
  ∀ a w, c (set_app a w) = (fst (c w), set_app a (snd (c w))).

(** Every coming request of the engine succeeds. *)
Definition serene (w : World) : Prop := forallb negb (sched w) = true.

(** The store holds what the list in memory holds. *)
Definition in_sync (w : World) : Prop :=
  store w = store_of_items (items (app w)).

(** A string that [trim] leaves as it is and that is not empty. *)
Definition trimmed (s : jsstring) : Prop := trim s = s ∧ s ≠ [].

(** An item as the form makes them: name, link and price trimmed and not
    empty. *)
Definition tidy (item : Item) : Prop :=
  trimmed (name item) ∧ trimmed (link item) ∧ trimmed (price item).

(** A Number that is a number. *)
Definition is_number (x : number) : Prop := x ≠ NaN.

(** [loadItems] and, once its timer fires, the effect that saves. *)
Definition startup (JSON_parse : jsstring → option (list Item)) : M unit :=
  await_ loadItems JSON_parse in saveItems.

(** The console after a call of the layer that logs under [label] when
    its open fails, and logs nothing else. *)
Definition open_log (label : string) (w : World) : list (string * error) :=
  match sched w with
  | true :: _ => console w ++ [(label, OpenFailed)]
  | _ => console w
  end.

Create HintDb footprint discriminated.

(** Runs a computation of the layer on a world whose schedule is known,
    leaving the operations on the store's contents alone. *)
Ltac run :=
  cbv [getAllItems getAllItems_promise saveItem saveItem_promise
       deleteItem deleteItem_promise saveAllItems saveAllItems_promise
       adopt try_catch try_finally bind ret throw hang get modify
       console_error verdict request initDB commit
       set_store set_legacy set_console set_sched set_app
       store legacy console sched app fst snd].

(** * Properties *)

(** ** The engine *)

Lemma same_page_refl w : same_page w w.
Proof. by split. Qed.

Lemma same_page_trans w1 w2 w3 :
  same_page w1 w2 → same_page w2 w3 → same_page w1 w3.
Proof. intros [? ?] [? ?]. split; congruence. Qed.

(** A request consumes one verdict and changes nothing else. *)
Lemma request_cases {A} (e : error) (a : A) w :
  (request e a w = (Resolved a, set_sched (tail (sched w)) w)
   ∧ head (sched w) ≠ Some true)
  ∨ (request e a w = (Rejected e, set_sched (tail (sched w)) w)
     ∧ head (sched w) = Some true).
Proof.
  unfold request, bind, verdict.
  destruct w as [s l c [|[] f] a0]; cbn; auto.
Qed.

(** ** The object store *)

Lemma keyed_empty : keyed ∅.
Proof. intros k item H. by rewrite lookup_empty in H. Qed.

Lemma keyed_put s item : keyed s → keyed (put s item).
Proof.
  intros Hs k x. unfold put. rewrite lookup_insert.
  case_decide; [intros [= <-]; done | apply Hs].
Qed.

Lemma keyed_delete k s : keyed s → keyed (delete k s).
Proof.
  intros Hs j x. rewrite lookup_delete.
  case_decide; [done | apply Hs].
Qed.

Lemma fold_put_snoc l x s :
  fold_left put (l ++ [x]) s = put (fold_left put l s) x.
Proof. by rewrite fold_left_app. Qed.

Lemma keyed_fold_put l s : keyed s → keyed (fold_left put l s).
Proof.
  revert s. induction l as [|x l IH]; intros s Hs; [done|].
  cbn. by apply IH, keyed_put.
Qed.

Lemma keyed_store_of_items l : keyed (store_of_items l).
Proof. apply keyed_fold_put, keyed_empty. Qed.

(** Upsert: under a key sits the last record of the list that has it. *)
Lemma lookup_fold_put l s k :
  fold_left put l s !! k =
  match last (filter (λ j, id j = k) l) with
  | Some item => Some item
  | None => s !! k
  end.
Proof.
  induction l as [|x l IH] using rev_ind; [done|].
  rewrite fold_put_snoc, filter_app. unfold put at 1.
  rewrite lookup_insert. rewrite filter_cons, filter_nil.
  case_decide as Hk.
  - by rewrite last_snoc.
  - by rewrite app_nil_r.
Qed.

Lemma lookup_store_of_items l k :
  store_of_items l !! k = last (filter (λ j, id j = k) l).
Proof.
  unfold store_of_items. rewrite lookup_fold_put, lookup_empty.
  by destruct (last _).
Qed.

Lemma getAll_perm s : getAll s ≡ₚ (map_to_list s).*2.
Proof. apply merge_sort_Permutation. Qed.

Lemma elem_of_getAll s item :
  item ∈ getAll s ↔ ∃ k, s !! k = Some item.
Proof.
  rewrite getAll_perm, list_elem_of_fmap. split.
  - intros [[k x] [-> H]]. exists k. by apply elem_of_map_to_list.
  - intros [k H]. exists (k, item). split; [done|].
    by apply elem_of_map_to_list.
Qed.

Lemma elem_of_getAll_keyed s item :
  keyed s → item ∈ getAll s ↔ s !! id item = Some item.
Proof.
  intros Hs. rewrite elem_of_getAll. split; [|eauto].
  intros [k H]. by rewrite (Hs _ _ H).
Qed.

Lemma keyed_ids s : keyed s → id <$> (map_to_list s).*2 = (map_to_list s).*1.
Proof.
  intros Hs.
  assert (Forall (λ p, id p.2 = p.1) (map_to_list s)) as H.
  { apply Forall_forall. intros [k x] Hin.
    apply elem_of_map_to_list in Hin. by apply Hs. }
  induction H as [|[k x] l Hx _ IH]; [done|].
  cbn in *. by rewrite IH, Hx.
Qed.

(** The records [getAll] yields have distinct keys. *)
Lemma getAll_NoDup_ids s : keyed s → NoDup (id <$> getAll s).
Proof.
  intros Hs. rewrite getAll_perm, keyed_ids by done.
  apply NoDup_fst_map_to_list.
Qed.

Lemma getAll_empty : getAll ∅ = [].
Proof.
  apply Permutation_nil_r. rewrite getAll_perm.
  by rewrite map_to_list_empty.
Qed.

Lemma filter_none {A} (P : A → Prop) `{!∀ x, Decision (P x)} (l : list A) :
  (∀ x, x ∈ l → ¬ P x) → filter P l = [].
Proof.
  induction l as [|x l IH]; intros Hl; [done|].
  rewrite filter_cons_False by (apply Hl; left).
  apply IH. intros y Hy. apply Hl. by right.
Qed.

(** Of a list without two records of one key nothing is lost. *)
Lemma getAll_store_of_items l :
  NoDup (id <$> l) → getAll (store_of_items l) ≡ₚ l.
Proof.
  intros Hl. apply NoDup_Permutation.
  - eapply NoDup_fmap_1, getAll_NoDup_ids, keyed_store_of_items.
  - by eapply NoDup_fmap_1.
  - intros item.
    rewrite elem_of_getAll_keyed by apply keyed_store_of_items.
    rewrite lookup_store_of_items.
    induction l as [|x l IH]; [cbn; set_solver|].
    apply NoDup_cons in Hl as [Hx Hl]. specialize (IH Hl).
    rewrite filter_cons. case_decide as Hid.
    + assert (filter (λ j, id j = id item) l = []) as ->.
      { apply filter_none. intros y Hy Heq. apply Hx.
        rewrite Hid, <- Heq. by apply list_elem_of_fmap_2. }
      cbn. split; [intros [= ->]; left | ].
      intros [->|Hin]%elem_of_cons; [done|].
      exfalso. apply Hx. rewrite Hid. by apply list_elem_of_fmap_2.
    + rewrite IH. split; [by right|].
      intros [->|Hin]%elem_of_cons; done.
Qed.

(** ** Footprints of computations *)

Section Keeps.
Context (R : relation World) `{!PreOrder R}.

Lemma keeps_ret {A} (a : A) : keeps R (ret a).
Proof. intros w. reflexivity. Qed.

Lemma keeps_throw {A} e : keeps R (@throw A e).
Proof. intros w. reflexivity. Qed.

Lemma keeps_bind {A B} (c : M A) (k : A → M B) :
  keeps R c → (∀ a, keeps R (k a)) → keeps R (bind c k).
Proof.
  intros Hc Hk w. unfold bind. specialize (Hc w).
  destruct (c w) as [[a|e|] w']; cbn in *; [|done..].
  etrans; [exact Hc | apply Hk].
Qed.
End Keeps.

Global Instance same_page_preorder : PreOrder same_page.
Proof.
  split; [intros w; apply same_page_refl|].
  intros w1 w2 w3. apply same_page_trans.
Qed.

Global Instance same_but_sched_preorder : PreOrder same_but_sched.
Proof.
  split; [by intros w|].
  intros w1 w2 w3 (?&?&?&?) (?&?&?&?). repeat split; congruence.
Qed.

Lemma same_but_sched_page w w' : same_but_sched w w' → same_page w w'.
Proof. by intros (_&?&_&?). Qed.

Lemma verdict_sched : keeps same_but_sched verdict.
Proof. intros [s l c [|b f] a]; by cbn. Qed.

Lemma request_sched {A} e (a : A) : keeps same_but_sched (request e a).
Proof.
  apply keeps_bind; [apply _ | apply verdict_sched |].
  intros []; [apply keeps_throw | apply keeps_ret]; apply _.
Qed.

Lemma put_all_sched l t : keeps same_but_sched (put_all l t).
Proof.
  revert t. induction l as [|x l IH]; intros t; cbn.
  - apply keeps_ret, _.
  - apply keeps_bind; [apply _ | apply request_sched | intros t'; apply IH].
Qed.

(** The puts build the contents in order; none of them hangs, and the only
    error is 'Failed to add item'. *)
Lemma put_all_result l t w :
  match fst (put_all l t w) with
  | Resolved t' => t' = fold_left put l t
  | Rejected e => e = AddFailed
  | Pending => False
  end.
Proof.
  revert t w. induction l as [|x l IH]; intros t w; cbn; [done|].
  unfold bind.
  destruct (request_cases AddFailed (put t x) w) as [[-> _]|[-> _]]; [|done].
  apply IH.
Qed.

(** ** Replace-all *)

Lemma commit_cases t w :
  (commit t w = (Resolved true, set_store t (set_sched (tail (sched w)) w))
   ∧ head (sched w) ≠ Some true)
  ∨ (commit t w = (Resolved false, set_sched (tail (sched w)) w)
     ∧ head (sched w) = Some true).
Proof.
  unfold commit, bind, verdict.
  destruct w as [s l c [|[] f] a]; cbn; auto.
Qed.

Lemma saveAllItems_promise_atomic l w :
  match saveAllItems_promise l w with
  | (Resolved _, w') => store w' = store_of_items l
  | (_, w') => store w' = store w
  end.
Proof.
  unfold saveAllItems_promise, bind.
  destruct (request_cases ClearFailed (∅ : Store) w) as [[-> _]|[-> _]];
    [|done].
  pose proof (put_all_result l ∅ (set_sched (tail (sched w)) w)) as Hr.
  pose proof (put_all_sched l ∅ (set_sched (tail (sched w)) w)) as [Hs _].
  destruct (put_all l ∅ _) as [[t|e|] w1]; cbn in *; [|done..].
  destruct (commit_cases t w1) as [[-> _]|[-> _]]; cbn; [|done].
  by rewrite Hr.
Qed.

(** [saveAllItems] after its open: the promise of the transaction, or the
    error of the open, logged and thrown again. *)
Lemma saveAllItems_unfold l w :
  saveAllItems l w =
  match request OpenFailed tt w with
  | (Resolved _, w') => saveAllItems_promise l w'
  | (Rejected e, w') =>
      (Rejected e,
       set_console (console w' ++ [("Error saving all items:"%string, e)]) w')
  | (Pending, w') => (Pending, w')
  end.
Proof.
  unfold saveAllItems, adopt, try_catch, bind, initDB.
  by destruct (request OpenFailed tt w) as [[[]|e|] w'].
Qed.

(** The contents after a replace-all: the collection when it resolved,
    the contents from before otherwise. *)
Lemma saveAllItems_store l w :
  match saveAllItems l w with
  | (Resolved _, w') => store w' = store_of_items l
  | (_, w') => store w' = store w
  end.
Proof.
  rewrite saveAllItems_unfold.
  destruct (request_cases OpenFailed tt w) as [[-> _]|[-> _]]; cbn.
  - pose proof (saveAllItems_promise_atomic l (set_sched (tail (sched w)) w))
      as H.
    by destruct (saveAllItems_promise l _) as [[[]|e|] w'].
  - done.
Qed.

(** The errors of a replace-all are those of the open, the clear and the
    puts. *)
Lemma saveAllItems_errors l w e :
  fst (saveAllItems l w) = Rejected e →
  e = OpenFailed ∨ e = ClearFailed ∨ e = AddFailed.
Proof.
  rewrite saveAllItems_unfold.
  destruct (request_cases OpenFailed tt w) as [[-> _]|[-> _]]; cbn;
    [|intros [= <-]; auto].
  unfold saveAllItems_promise, bind.
  destruct (request_cases ClearFailed (∅ : Store) (set_sched (tail (sched w)) w))
    as [[-> _]|[-> _]]; cbn; [|intros [= <-]; auto].
  match goal with |- context [put_all l ∅ ?w0] =>
    pose proof (put_all_result l ∅ w0) as Hr;
    destruct (put_all l ∅ w0) as [[t|e'|] w1] end; cbn in *;
    [|intros [= <-]; auto|done].
  by destruct (commit_cases t w1) as [[-> _]|[-> _]].
Qed.

(** C2. Replace-all is atomic. Whatever the contents of the store, the
    collection and the requests the engine fails, the contents after
    [saveAllItems] are the collection (put in order, by key) when the call
    resolves, and the contents from before when it rejects, which it does
    for a failure of the open, of the clear or of the put of some item, or
    when it never settles, as after a commit that fails: no failure leaves
    a trace. *)
Theorem saveAllItems_atomic (l : list Item) (w : World) :
  match saveAllItems l w with
  | (Resolved _, w') => store w' = store_of_items l
  | (Rejected e, w') =>
      store w' = store w
      ∧ (e = OpenFailed ∨ e = ClearFailed ∨ e = AddFailed)
  | (Pending, w') => store w' = store w
  end.
Proof.
  pose proof (saveAllItems_store l w) as Hstore.
  pose proof (saveAllItems_errors l w) as Herr.
  destruct (saveAllItems l w) as [[[]|e|] w']; cbn in *; [done| |done].
  split; [done|]. by apply Herr.
Qed.

(** A replace-all whose third put fails: the call rejects with 'Failed to
    add item', and the clear and the two puts before it are undone. *)
Example saveAllItems_third_put_fails :
  let w := stored_world [lamp] None [false; false; false; false; true] in
  let r := saveAllItems [headphones; television; lamp] w in
  fst r = Rejected AddFailed
  ∧ store (snd r) = store w
  ∧ getAll (store (snd r)) = [lamp].
Proof. by vm_compute. Qed.

(** The same replace-all with an engine that fails nothing. *)
Example saveAllItems_succeeds :
  let w := stored_world [lamp] None [] in
  let r := saveAllItems [television; headphones] w in
  fst r = Resolved tt
  ∧ getAll (store (snd r)) = [headphones; television].
Proof. by vm_compute. Qed.

(** A commit that fails: the promise is never settled, the contents are
    the ones from before. *)
Example saveAllItems_commit_fails :
  let w := stored_world [lamp] None [false; false; false; true] in
  let r := saveAllItems [headphones] w in
  fst r = Pending ∧ getAll (store (snd r)) = [lamp].
Proof. by vm_compute. Qed.

(** ** Load-all *)

Lemma getAllItems_open_fails w f :
  sched w = true :: f →
  getAllItems w =
  (Resolved [],
   set_console (console w ++ [("Error getting items:"%string, OpenFailed)])
     (set_sched f w)).
Proof. destruct w as [s l c f' a]. cbn. intros ->. by run. Qed.

Lemma getAllItems_read_fails w f :
  sched w = false :: true :: f →
  getAllItems w = (Rejected GetFailed, set_sched f w).
Proof. destruct w as [s l c f' a]. cbn. intros ->. by run. Qed.

Lemma getAllItems_quiet w :
  quiet 2 w →
  getAllItems w =
  (Resolved (getAll (store w)), set_sched (drop 2 (sched w)) w).
Proof.
  destruct w as [s l c f a]. unfold quiet. cbn [sched].
  destruct f as [|[] [|[] f]]; cbn; try done; by run.
Qed.

(** What a load-all sees after a replace-all that did not resolve is what
    it would have seen before it. *)
Corollary load_after_failed_save l w :
  fst (saveAllItems l w) ≠ Resolved tt →
  quiet 2 (snd (saveAllItems l w)) →
  fst (getAllItems (snd (saveAllItems l w))) = Resolved (getAll (store w)).
Proof.
  intros Hfail Hquiet. rewrite getAllItems_quiet by done. cbn.
  pose proof (saveAllItems_store l w) as Hstore.
  destruct (saveAllItems l w) as [[[]|e|] w']; cbn in *; by rewrite ?Hstore.
Qed.

(** Load-all leaves the contents, the legacy slot and the React state as
    they are. *)
Lemma getAllItems_footprint w :
  same_store w (snd (getAllItems w)) ∧ same_page w (snd (getAllItems w)).
Proof.
  destruct w as [s l c f a].
  destruct f as [|[] [|[] f]]; by run.
Qed.

(** What [getAllItems] answers: a collection, or the error of the read. *)
Lemma getAllItems_outcome w :
  (∃ l, fst (getAllItems w) = Resolved l)
  ∨ fst (getAllItems w) = Rejected GetFailed.
Proof.
  destruct w as [s l c f a].
  destruct f as [|[] [|[] f]]; run; eauto.
Qed.

(** C1, where the code departs from it. The open succeeds and the [getAll]
    request fails: the promise of [getAllItems] is rejected with 'Failed to
    get items from IndexedDB', nothing is logged, and the caller receives
    no collection. Only a failure of the open is caught and turned into the
    empty collection. *)
Example getAllItems_read_failure_escapes :
  getAllItems (stored_world [lamp] None [false; true])
  = (Rejected GetFailed, stored_world [lamp] None [])
  ∧ console (snd (getAllItems (stored_world [lamp] None [false; true]))) = [].
Proof. split; reflexivity. Qed.

(** What does hold of C1: a failure of the open is logged and answered
    with the empty collection. *)
Example getAllItems_open_failure_degrades :
  getAllItems (stored_world [lamp] None [true])
  = (Resolved [],
     set_console [("Error getting items:"%string, OpenFailed)]
       (stored_world [lamp] None [])).
Proof. reflexivity. Qed.

(** C3. Round trip. After a [saveAllItems] that resolved, a [getAllItems]
    whose open and read succeed resolves with the collection, keyed by id:
    a record is handed back exactly when it is the last record of the
    collection with its id (upsert), no two records handed back share an
    id, and a collection without colliding ids comes back whole, up to
    order. *)
Theorem save_then_load (l : list Item) (w w1 : World) :
  saveAllItems l w = (Resolved tt, w1) →
  quiet 2 w1 →
  ∃ loaded w2,
    getAllItems w1 = (Resolved loaded, w2)
    ∧ (∀ item, item ∈ loaded ↔
               last (filter (λ j, id j = id item) l) = Some item)
    ∧ NoDup (id <$> loaded)
    ∧ (NoDup (id <$> l) → loaded ≡ₚ l).
Proof.
  intros Hsave Hquiet.
  pose proof (saveAllItems_store l w) as Hstore.
  rewrite Hsave in Hstore.
  exists (getAll (store w1)), (set_sched (drop 2 (sched w1)) w1).
  split; [by apply getAllItems_quiet|].
  rewrite Hstore. split_and!.
  - intros item.
    rewrite elem_of_getAll_keyed by apply keyed_store_of_items.
    by rewrite lookup_store_of_items.
  - apply getAll_NoDup_ids, keyed_store_of_items.
  - apply getAll_store_of_items.
Qed.

Lemma save_then_load_witness :
  ∃ loaded w2,
    getAllItems (snd (saveAllItems [television; headphones]
                                   (stored_world [lamp] None [])))
    = (Resolved loaded, w2)
    ∧ (∀ item, item ∈ loaded ↔
               last (filter (λ j, id j = id item) [television; headphones])
               = Some item)
    ∧ NoDup (id <$> loaded)
    ∧ (NoDup (id <$> [television; headphones]) →
       loaded ≡ₚ [television; headphones]).
Proof.
  apply (save_then_load [television; headphones]
           (stored_world [lamp] None [])
           (snd (saveAllItems [television; headphones]
                              (stored_world [lamp] None [])))).
  - reflexivity.
  - reflexivity.
Defined.

(** Two records of one id: the later one is stored. *)
Example save_then_load_collision :
  let newer := mkItem 1000 (lit "Earbuds") (lit "https://shop.example/e")
                      (lit "999") false in
  let w1 := snd (saveAllItems [headphones; television; newer]
                              (stored_world [lamp] None [])) in
  fst (getAllItems w1) = Resolved [newer; television].
Proof. by vm_compute. Qed.

(** ** Delete-by-id *)

(** [deleteItem] settles, and leaves the legacy slot and the React state
    as they are. *)
Lemma deleteItem_footprint k w :
  fst (deleteItem k w) ≠ Pending ∧ same_page w (snd (deleteItem k w)).
Proof.
  destruct w as [s l c f a].
  destruct f as [|[] [|[] [|[] f]]]; by run.
Qed.

(** C6. Deleting a key the store does not hold changes nothing in the
    store, whatever the engine does, and the call resolves whenever the
    open and the delete request succeed: that the key is absent is no
    error. *)
Theorem deleteItem_absent (k : Z) (w : World) :
  store w !! k = None →
  store (snd (deleteItem k w)) = store w
  ∧ (quiet 2 w → fst (deleteItem k w) = Resolved tt).
Proof.
  destruct w as [s l c f a]. cbn [store]. intros Hk.
  unfold quiet. cbn [sched].
  destruct f as [|[] [|[] [|[] f]]]; run; rewrite ?delete_id by done;
    split; done.
Qed.

Lemma deleteItem_absent_witness :
  store (snd (deleteItem 5 (stored_world [lamp] None [])))
  = store (stored_world [lamp] None [])
  ∧ fst (deleteItem 5 (stored_world [lamp] None [])) = Resolved tt.
Proof.
  destruct (deleteItem_absent 5 (stored_world [lamp] None []))
    as [Hstore Hresolves].
  - reflexivity.
  - split; [exact Hstore | apply Hresolves; reflexivity].
Defined.

(** Deleting a key the store holds removes its record. *)
Example deleteItem_present :
  let r := deleteItem 7 (stored_world [lamp; headphones] None []) in
  fst r = Resolved tt ∧ getAll (store (snd r)) = [headphones].
Proof. by vm_compute. Qed.

(** ** The handlers *)

(** C7. Optimistic delete. [handleDeleteItem] always resolves, and the
    in-memory list afterwards is the list from before without the items of
    that id, whether [deleteItem] resolved or was rejected; a rejection is
    logged under 'Error deleting item:' and goes no further. *)
Theorem handleDeleteItem_optimistic (k : Z) (w : World) :
  ∃ w',
    handleDeleteItem k w = (Resolved tt, w')
    ∧ items (app w') = without k (items (app w))
    ∧ (∀ item, item ∈ items (app w') ↔ item ∈ items (app w) ∧ id item ≠ k)
    ∧ match fst (deleteItem k w) with
      | Rejected e =>
          console w' = console (snd (deleteItem k w))
                       ++ [("Error deleting item:"%string, e)]
      | _ => console w' = console (snd (deleteItem k w))
      end.
Proof.
  unfold handleDeleteItem, try_catch, bind.
  destruct (deleteItem_footprint k w) as [Hp [_ Ha]].
  destruct (deleteItem k w) as [[[]|e|] w1]; cbn in *; [| |done].
  - eexists. split; [reflexivity|]. cbn. rewrite Ha. split_and!; [done| |done].
    intros item. unfold without. rewrite list_elem_of_filter. tauto.
  - eexists. split; [reflexivity|]. cbn. rewrite Ha. split_and!; [done| |done].
    intros item. unfold without. rewrite list_elem_of_filter. tauto.
Qed.

Lemma truthy_spec s : truthy s = true ↔ s ≠ [].
Proof. by destruct s. Qed.

Lemma filled_spec d :
  filled d = true ↔
  trim (form_name d) ≠ [] ∧ trim (form_link d) ≠ [] ∧ trim (form_price d) ≠ [].
Proof.
  unfold filled. rewrite !andb_true_iff, !truthy_spec. tauto.
Qed.

Lemma not_filled_spec d :
  filled d = false ↔
  trim (form_name d) = [] ∨ trim (form_link d) = [] ∨ trim (form_price d) = [].
Proof.
  unfold filled.
  destruct (trim (form_name d)), (trim (form_link d)), (trim (form_price d));
    cbn; intuition discriminate.
Qed.

(** C9. Frame of an edit. With edit data none of whose fields is blank,
    [handleSaveEdit] keeps the number of items and, position by position,
    leaves an item of another id as it is and gives an item of the id the
    trimmed name, link and price, keeping its id and bought. *)
Theorem handleSaveEdit_frame (k : Z) (a : AppState) :
  filled (editData a) = true →
  length (items (handleSaveEdit k a)) = length (items a)
  ∧ ∀ n item,
      items a !! n = Some item →
      ∃ item',
        items (handleSaveEdit k a) !! n = Some item'
        ∧ id item' = id item
        ∧ bought item' = bought item
        ∧ (id item ≠ k → item' = item)
        ∧ (id item = k →
           name item' = trim (form_name (editData a))
           ∧ link item' = trim (form_link (editData a))
           ∧ price item' = trim (form_price (editData a))).
Proof.
  intros Hfilled. unfold handleSaveEdit. rewrite Hfilled. cbn.
  split; [by rewrite length_fmap|].
  intros n item Hn. rewrite list_lookup_fmap, Hn. cbn.
  eexists. split; [reflexivity|].
  case_decide; cbn; by split_and!.
Qed.

Lemma handleSaveEdit_frame_witness :
  length (items (handleSaveEdit 1000 editing_app))
  = length (items editing_app)
  ∧ ∀ n item,
      items editing_app !! n = Some item →
      ∃ item',
        items (handleSaveEdit 1000 editing_app) !! n = Some item'
        ∧ id item' = id item
        ∧ bought item' = bought item
        ∧ (id item ≠ 1000 → item' = item)
        ∧ (id item = 1000 →
           name item' = trim (form_name (editData editing_app))
           ∧ link item' = trim (form_link (editData editing_app))
           ∧ price item' = trim (form_price (editData editing_app))).
Proof. apply (handleSaveEdit_frame 1000 editing_app). reflexivity. Defined.

Example handleSaveEdit_sample :
  items (handleSaveEdit 1000 editing_app)
  = [mkItem 1000 (lit "Earbuds") (lit "https://shop.example/earbuds")
            (lit "999") false;
     television].
Proof. reflexivity. Qed.

(** Toggling an item, saving and loading again hands the toggled item
    back. *)
Example toggle_save_load :
  let a := handleToggleBought 7 (set_items [lamp] initial_app) in
  let w := snd (saveAllItems (items a) (stored_world [lamp] None [])) in
  fst (getAllItems w)
  = Resolved [mkItem 7 (name lamp) (link lamp) (price lamp) true].
Proof. by vm_compute. Qed.

(** C10. Adding an item. When the name, the link or the price of the form
    trims to the empty string, [handleAddItem] changes nothing. Otherwise
    the list afterwards is the list from before followed by one item: its
    id is the time of the call, its name, link and price are the trimmed
    values of the form, and it is not bought. *)
Theorem handleAddItem_spec (now : Z) (a : AppState) :
  (trim (form_name (formData a)) = [] ∨ trim (form_link (formData a)) = []
   ∨ trim (form_price (formData a)) = [] →
   handleAddItem now a = a)
  ∧ (trim (form_name (formData a)) ≠ [] ∧ trim (form_link (formData a)) ≠ []
     ∧ trim (form_price (formData a)) ≠ [] →
     items (handleAddItem now a) =
     items a ++ [mkItem now (trim (form_name (formData a)))
                        (trim (form_link (formData a)))
                        (trim (form_price (formData a))) false]).
Proof.
  unfold handleAddItem. split.
  - intros H%not_filled_spec. by rewrite H.
  - intros H%filled_spec. by rewrite H.
Qed.

Lemma handleAddItem_spec_witness :
  handleAddItem 1700000000000
    (typing_app (mkForm (lit "Lamp") (lit "   ") (lit "40")))
  = typing_app (mkForm (lit "Lamp") (lit "   ") (lit "40"))
  ∧ items (handleAddItem 1700000000000
             (typing_app (mkForm (lit " Lamp ")
                                 (lit "https://shop.example/lamp")
                                 (lit "40 "))))
    = [headphones;
       mkItem 1700000000000 (lit "Lamp") (lit "https://shop.example/lamp")
              (lit "40") false].
Proof.
  split.
  - apply (handleAddItem_spec 1700000000000
             (typing_app (mkForm (lit "Lamp") (lit "   ") (lit "40")))).
    right. left. reflexivity.
  - apply (handleAddItem_spec 1700000000000
             (typing_app (mkForm (lit " Lamp ")
                                 (lit "https://shop.example/lamp")
                                 (lit "40 ")))).
    repeat split; discriminate.
Defined.

(** ** The total *)

Lemma strip_spec s c :
  In c (strip s) ↔ In c s ∧ ((48 ≤ c ≤ 57)%N ∨ c = 46%N).
Proof.
  unfold strip. rewrite filter_In. unfold isPriceChar, isDigit.
  rewrite orb_true_iff, andb_true_iff, !N.leb_le, N.eqb_eq. tauto.
Qed.

(** A price without a digit: what [strip] leaves of it is a run of dots. *)
Lemma strip_no_digit s :
  (∀ c, In c s → isDigit c = false) →
  ∀ c, In c (strip s) → c = 46%N.
Proof.
  intros Hs c [Hc [Hd| ->]]%strip_spec; [|done].
  apply Hs in Hc. unfold isDigit in Hc.
  apply andb_false_iff in Hc as [Hc|Hc]; apply N.leb_gt in Hc; lia.
Qed.

(** In a run of dots [parseFloat] finds no number. *)
Lemma parseFloat_dots s : (∀ c, In c s → c = 46%N) → parseFloat s = NaN.
Proof.
  intros Hs. unfold parseFloat.
  destruct s as [|c s]; [done|].
  rewrite (Hs c) by (by left). cbn.
  destruct s as [|c' s]; [done|].
  rewrite (Hs c') by (right; by left). done.
Qed.

(** Rounding keeps the sign. *)
Lemma binary_round_aux_nonneg m e l :
  nonneg (binary_round_aux prec emax false m e l).
Proof.
  unfold binary_round_aux.
  destruct (shr_fexp prec emax m e l) as [mrs' e'].
  destruct (shr_fexp prec emax _ e' loc_Exact) as [mrs'' e''].
  destruct (shr_m mrs''); [done| |done].
  by destruct (_ <=? _).
Qed.

Lemma add_nonneg x y : nonneg x → nonneg y → nonneg (add x y).
Proof.
  destruct x as [sx|sx| |sx mx ex], y as [sy|sy| |sy my ey]; cbn;
    intros Hx Hy; subst; try done.
  unfold binary_normalize, cond_Zopp.
  destruct (shl_align mx ex _) as [mx' ex'], (shl_align my ey _) as [my' ey'].
  cbn [fst]. change (Z.pos mx' + Z.pos my') with (Z.pos (mx' + my')).
  unfold binary_round.
  destruct (shl_align (mx' + my') _ _) as [mz ez]. apply binary_round_aux_nonneg.
Qed.

(** Adding 0 changes nothing, the negative zero apart. *)
Lemma add_zero_r x : nonneg x → add x zero = x.
Proof. by destruct x as [[]|[]| |[] mx ex]. Qed.

Lemma of_decimal_nonneg n k : nonneg (of_decimal n k).
Proof.
  destruct n as [|p|p]; [done| |done]. unfold of_decimal, SFdiv.
  destruct (SFdiv_core_binary _ _ _ _ _ _) as [[mz ez] lz].
  apply binary_round_aux_nonneg.
Qed.

Lemma price_value_nonneg item : nonneg (price_value item).
Proof.
  unfold price_value, parseFloat.
  destruct (span_digits _) as [ip r].
  set (fp := match r with 46%N :: r' => fst (span_digits r') | _ => [] end).
  assert (nonneg (or_zero (of_decimal (digits_value (ip ++ fp)) (length fp))))
    as H.
  { pose proof (of_decimal_nonneg (digits_value (ip ++ fp)) (length fp)) as H.
    by destruct (of_decimal _ _). }
  by destruct ip, fp.
Qed.

(** The total is never the negative zero. *)
Lemma calculateTotal_nonneg l : nonneg (calculateTotal l).
Proof.
  unfold calculateTotal.
  assert (nonneg zero) as H by done. revert H. generalize zero.
  induction (filter _ l) as [|x l' IH]; intros q Hq; [done|].
  cbn. apply IH, add_nonneg; [done | apply price_value_nonneg].
Qed.

(** C8. The total of what is still to buy. [calculateTotal] adds up, from
    0 and in the order of the list, the price values of the items that are
    not bought: a bought item changes nothing wherever it stands, an item
    not bought that comes last adds its price value to the total of the
    items before it. The price value is what [parseFloat] reads in the
    price stripped of every character that is no digit and no dot, and 0
    when it reads no number, as for a price without a digit. With the
    items of id 1000, price '₹1,299', not bought, and of id 1001, price
    '₹2,500', bought, the total is 1299. *)
Theorem calculateTotal_spec :
  calculateTotal [] = zero
  ∧ (∀ l1 item l2, bought item = true →
       calculateTotal (l1 ++ item :: l2) = calculateTotal (l1 ++ l2))
  ∧ (∀ l item, bought item = false →
       calculateTotal (l ++ [item]) = add (calculateTotal l) (price_value item))
  ∧ (∀ s c, In c (strip s) ↔ In c s ∧ ((48 ≤ c ≤ 57)%N ∨ c = 46%N))
  ∧ (∀ item, parseFloat (strip (price item)) = NaN →
       price_value item = zero)
  ∧ (∀ item, (∀ c, In c (price item) → isDigit c = false) →
       price_value item = zero)
  ∧ (∀ item m e, parseFloat (strip (price item)) = S754_finite false m e →
       price_value item = S754_finite false m e)
  ∧ (∀ l item, price_value item = zero →
       calculateTotal (l ++ [item]) = calculateTotal l)
  ∧ (∀ n1 l1 n2 l2,
       calculateTotal
         [mkItem 1000 n1 l1 (8377%N :: lit "1,299") false;
          mkItem 1001 n2 l2 (8377%N :: lit "2,500") true]
       = of_decimal 1299 0)
  ∧ of_decimal 1299 0 = S754_finite false (1299 * 2 ^ 42) (-42).
Proof.
  split_and!.
  - done.
  - intros l1 item l2 Hb. unfold calculateTotal.
    by rewrite !filter_app, filter_cons_False by congruence.
  - intros l item Hb. unfold calculateTotal.
    rewrite filter_app, filter_cons_True, filter_nil by done.
    by rewrite fold_left_app.
  - apply strip_spec.
  - intros item H. unfold price_value. by rewrite H.
  - intros item H. unfold price_value.
    by rewrite parseFloat_dots by by apply strip_no_digit.
  - intros item m e H. unfold price_value. by rewrite H.
  - intros l item Hz. unfold calculateTotal. rewrite filter_app, filter_cons.
    case_decide; [|by rewrite app_nil_r].
    rewrite filter_nil, fold_left_app. cbn. rewrite Hz.
    apply add_zero_r, calculateTotal_nonneg.
  - intros. by vm_compute.
  - by vm_compute.
Qed.

(** What [parseFloat] makes of strings of digits and dots. *)
Example parseFloat_examples :
  parseFloat (lit "1299") = of_decimal 1299 0
  ∧ parseFloat (lit "12.50") = of_decimal 1250 2
  ∧ parseFloat (lit "1.2.3") = of_decimal 12 1
  ∧ parseFloat (lit ".500") = of_decimal 500 3
  ∧ parseFloat (lit "7.") = of_decimal 7 0
  ∧ parseFloat (lit ".") = NaN
  ∧ parseFloat (lit "..5") = NaN
  ∧ parseFloat [] = NaN.
Proof. by vm_compute. Qed.

(** ** The layer does not look at the React state *)

Lemma oblivious_ret {A} (x : A) : oblivious (ret x).
Proof. by intros a w. Qed.

Lemma oblivious_throw {A} e : oblivious (@throw A e).
Proof. by intros a w. Qed.

Lemma oblivious_hang {A} : oblivious (@hang A).
Proof. by intros a w. Qed.

Lemma oblivious_bind {A B} (c : M A) (k : A → M B) :
  oblivious c → (∀ x, oblivious (k x)) → oblivious (bind c k).
Proof.
  intros Hc Hk a w. unfold bind. rewrite Hc.
  destruct (c w) as [[x|e|] w']; cbn; [apply Hk|done..].
Qed.

Lemma oblivious_try_catch {A} (c : M A) h :
  oblivious c → (∀ e, oblivious (h e)) → oblivious (try_catch c h).
Proof.
  intros Hc Hh a w. unfold try_catch. rewrite Hc.
  destruct (c w) as [[x|e|] w']; cbn; [done|apply Hh|done].
Qed.

Lemma oblivious_verdict : oblivious verdict.
Proof. intros a [s l c [|b f] a0]; by cbn. Qed.

Lemma oblivious_request {A} e (x : A) : oblivious (request e x).
Proof.
  apply oblivious_bind; [apply oblivious_verdict|].
  intros []; [apply oblivious_throw | apply oblivious_ret].
Qed.

Lemma oblivious_console_error label e : oblivious (console_error label e).
Proof. by intros a w. Qed.

Lemma oblivious_commit t : oblivious (commit t).
Proof.
  apply oblivious_bind; [apply oblivious_verdict|].
  intros []; [apply oblivious_ret|].
  apply oblivious_bind; [by intros a w | intros; apply oblivious_ret].
Qed.

Lemma oblivious_put_all l t : oblivious (put_all l t).
Proof.
  revert t. induction l as [|x l IH]; intros t; cbn.
  - apply oblivious_ret.
  - apply oblivious_bind; [apply oblivious_request | done].
Qed.

#[global] Hint Resolve oblivious_ret oblivious_throw oblivious_hang
  oblivious_verdict oblivious_request oblivious_console_error
  oblivious_commit oblivious_put_all : footprint.

Lemma oblivious_saveAllItems_promise l : oblivious (saveAllItems_promise l).
Proof.
  unfold saveAllItems_promise.
  apply oblivious_bind; [auto with footprint | intros t0].
  apply oblivious_bind; [auto with footprint | intros t].
  apply oblivious_bind; [auto with footprint | intros completed].
  destruct completed; auto with footprint.
Qed.

Lemma oblivious_saveAllItems l : oblivious (saveAllItems l).
Proof.
  intros a w. rewrite !saveAllItems_unfold, oblivious_request.
  destruct (request OpenFailed tt w) as [[[]|e|] w']; cbn; [|done..].
  apply oblivious_saveAllItems_promise.
Qed.

Lemma oblivious_getAllItems : oblivious getAllItems.
Proof.
  intros a [s l c f a0].
  destruct f as [|[] [|[] f]]; by run.
Qed.

(** Replace-all leaves the legacy slot and the React state as they are. *)
Lemma saveAllItems_page l w : same_page w (snd (saveAllItems l w)).
Proof.
  rewrite saveAllItems_unfold.
  pose proof (request_sched OpenFailed tt w) as Ho%same_but_sched_page.
  destruct (request OpenFailed tt w) as [[[]|e|] w']; cbn in *; [|done..].
  etrans; [exact Ho|]. clear Ho.
  unfold saveAllItems_promise, bind.
  pose proof (request_sched ClearFailed (∅ : Store) w')
    as Hc%same_but_sched_page.
  destruct (request ClearFailed _ w') as [[t0|e|] w1]; cbn in *; [|done..].
  etrans; [exact Hc|]. clear Hc.
  pose proof (put_all_sched l t0 w1) as Hp%same_but_sched_page.
  destruct (put_all l t0 w1) as [[t|e|] w2]; cbn in *; [|done..].
  etrans; [exact Hp|]. clear Hp.
  by destruct (commit_cases t w2) as [[-> _]|[-> _]].
Qed.

(** ** Startup and the migration from localStorage *)

Section StartupProperties.

Variable JSON_parse : jsstring → option (list Item).

(** With nothing to import the migration does not write: it returns, or
    throws the error of [JSON.parse], and the world is as before. *)
Lemma migrate_nothing w :
  nothing_to_import JSON_parse (legacy w) →
  migrate JSON_parse w = (Resolved tt, w)
  ∨ migrate JSON_parse w = (Rejected SyntaxError, w).
Proof.
  unfold migrate, bind, get, parse.
  intros [->|[(s & -> & Hs)|(s & -> & Hs)]]; [by left|..];
    destruct (truthy s); rewrite ?Hs; cbn; auto.
Qed.

(** A migration whose replace-all resolves: the list is in memory and the
    slot is erased. *)
Lemma migrate_imports w w2 s l :
  legacy w = Some s → truthy s = true → JSON_parse s = Some l → l ≠ [] →
  saveAllItems l w = (Resolved tt, w2) →
  migrate JSON_parse w =
  (Resolved tt, set_legacy None (set_app (set_items l (app w2)) w2)).
Proof.
  intros Hs Ht Hl Hne Hsave.
  unfold migrate, bind, get, parse. rewrite Hs, Ht, Hl. cbn.
  destruct l as [|x l]; [done|]. cbn. by rewrite Hsave.
Qed.

(** A migration whose replace-all does not resolve stops there: nothing is
    put in memory and the slot keeps its text. *)
Lemma migrate_write_fails w s l :
  legacy w = Some s → truthy s = true → JSON_parse s = Some l → l ≠ [] →
  fst (saveAllItems l w) ≠ Resolved tt →
  migrate JSON_parse w = (match fst (saveAllItems l w) with
                          | Rejected e => Rejected e
                          | _ => Pending
                          end, snd (saveAllItems l w)).
Proof.
  intros Hs Ht Hl Hne Hsave.
  unfold migrate, bind, get, parse. rewrite Hs, Ht, Hl. cbn.
  destruct l as [|x l]; [done|]. cbn.
  by destruct (saveAllItems _ w) as [[[]|e|] w'].
Qed.

(** [loadItems] when load-all resolves. *)
Lemma loadItems_loaded w w1 loaded :
  getAllItems w = (Resolved loaded, w1) →
  loadItems JSON_parse w =
  let w1' := set_app (set_items loaded (set_isLoading true (app w))) w1 in
  match (if (length loaded =? 0)%nat then migrate JSON_parse w1'
         else (Resolved tt, w1')) with
  | (Resolved _, w2) =>
      (Resolved tt, set_app (set_isLoading false (app w2)) w2)
  | (Rejected e, w2) =>
      (Resolved tt,
       set_app (set_isLoading false (app w2))
         (set_console (console w2 ++ [("Error loading items:"%string, e)])
                      w2))
  | (Pending, w2) => (Pending, w2)
  end.
Proof.
  intros Hload.
  unfold loadItems, try_finally, try_catch, bind, setIsLoading, setItems,
    modify.
  rewrite oblivious_getAllItems, Hload. cbn [fst snd].
  cbn [set_app app store legacy console sched].
  destruct (length loaded =? 0)%nat; [|done].
  by destruct (migrate JSON_parse _) as [[[]|e|] w2].
Qed.

(** [loadItems] when load-all rejects. *)
Lemma loadItems_rejected w w1 e :
  getAllItems w = (Rejected e, w1) →
  loadItems JSON_parse w =
  (Resolved tt,
   set_app (set_isLoading false (app w))
     (set_console (console w1 ++ [("Error loading items:"%string, e)]) w1)).
Proof.
  intros Hload.
  unfold loadItems, try_finally, try_catch, bind, setIsLoading, setItems,
    modify.
  by rewrite oblivious_getAllItems, Hload.
Qed.

(** C5. Nothing to import. When the store is empty and the legacy slot is
    absent, holds text that does not deserialize or holds the empty list,
    startup resolves, and the contents of the store and the legacy slot
    are afterwards what they were. *)
Theorem loadItems_nothing_to_import (w : World) :
  store w = ∅ →
  nothing_to_import JSON_parse (legacy w) →
  ∃ w',
    loadItems JSON_parse w = (Resolved tt, w')
    ∧ store w' = store w
    ∧ legacy w' = legacy w.
Proof.
  intros _ Hslot.
  pose proof (getAllItems_footprint w) as [Hst [Hleg _]].
  destruct (getAllItems_outcome w) as [[loaded Hr]|Hr];
    destruct (getAllItems w) as [r w1] eqn:Hload; cbn in *; subst r.
  - rewrite (loadItems_loaded _ _ _ Hload). cbn zeta.
    destruct (length loaded =? 0)%nat.
    + destruct (migrate_nothing
                  (set_app (set_items loaded (set_isLoading true (app w))) w1))
        as [->| ->]; [by cbn; rewrite Hleg | |]; eauto.
    + eauto.
  - rewrite (loadItems_rejected _ _ _ Hload). eauto.
Qed.

(** [JSON.parse('')] throws. *)
Hypothesis JSON_parse_empty : JSON_parse [] = None.

(** C4, amended. The migration. When load-all resolves with the empty
    collection and the legacy slot holds the serialization of a list that
    is not empty, startup replaces the contents of the store by that list:
    if the replace-all resolves, startup ends with the list as the contents
    of the store (put in order, by key), the list in memory, and the slot
    erased; if it does not, the store, the empty list in memory and the
    slot are left as they were. When load-all resolves with a collection
    that is not empty, startup puts that collection in memory and touches
    neither the store nor the slot, whatever the slot holds. *)
Theorem loadItems_migration (w w1 : World) (loaded : list Item) :
  getAllItems w = (Resolved loaded, w1) →
  (loaded = [] →
   ∀ s l,
     legacy w = Some s → JSON_parse s = Some l → l ≠ [] →
     (∀ w2, saveAllItems l w1 = (Resolved tt, w2) →
        ∃ w',
          loadItems JSON_parse w = (Resolved tt, w')
          ∧ store w' = store_of_items l
          ∧ items (app w') = l
          ∧ legacy w' = None
          ∧ isLoading (app w') = false)
     ∧ (fst (saveAllItems l w1) ≠ Resolved tt →
        store (snd (loadItems JSON_parse w)) = store w
        ∧ items (app (snd (loadItems JSON_parse w))) = []
        ∧ legacy (snd (loadItems JSON_parse w)) = Some s))
  ∧ (loaded ≠ [] →
     ∃ w',
       loadItems JSON_parse w = (Resolved tt, w')
       ∧ store w' = store w
       ∧ items (app w') = loaded
       ∧ legacy w' = legacy w
       ∧ isLoading (app w') = false).
Proof.
  intros Hload.
  pose proof (getAllItems_footprint w) as [Hst [Hleg _]].
  rewrite Hload in Hst, Hleg. cbn in Hst, Hleg.
  rewrite (loadItems_loaded _ _ _ Hload). cbn zeta. split.
  - intros -> s l Hs Hl Hne. cbn [length Nat.eqb].
    assert (truthy s = true) as Ht.
    { destruct s; [congruence|done]. }
    set (a0 := set_items [] (set_isLoading true (app w))).
    assert (legacy (set_app a0 w1) = Some s) as Hs1.
    { cbn. by rewrite Hleg. }
    pose proof (saveAllItems_store l w1) as Hstore.
    pose proof (saveAllItems_page l w1) as [Hleg2 Happ2].
    split.
    + intros w2 Hsave. rewrite Hsave in Hstore.
      rewrite (migrate_imports (set_app a0 w1) (set_app a0 w2) s l); try done.
      * eexists. split; [reflexivity|]. by cbn.
      * by rewrite oblivious_saveAllItems, Hsave.
    + intros Hsave.
      pose proof (oblivious_saveAllItems l a0 w1) as Hobl.
      rewrite (migrate_write_fails (set_app a0 w1) s l); try done;
        rewrite Hobl; cbn [fst snd]; [|done].
      destruct (saveAllItems l w1) as [[[]|e|] w2]; cbn in *; [done|..];
        rewrite Hstore, Hleg2, Hleg; done.
  - intros Hne. destruct loaded as [|x loaded]; [done|]. cbn [length Nat.eqb].
    eexists. split; [reflexivity|]. by cbn.
Qed.

End StartupProperties.

Lemma loadItems_nothing_to_import_witness :
  (∃ w', loadItems sample_parse (stored_world [] None [])
         = (Resolved tt, w')
         ∧ store w' = store (stored_world [] None [])
         ∧ legacy w' = None)
  ∧ (∃ w', loadItems sample_parse (stored_world [] (Some (lit "[{")) [])
           = (Resolved tt, w')
           ∧ store w' = store (stored_world [] (Some (lit "[{")) [])
           ∧ legacy w' = Some (lit "[{"))
  ∧ (∃ w', loadItems sample_parse (stored_world [] (Some (lit "[]")) [])
           = (Resolved tt, w')
           ∧ store w' = store (stored_world [] (Some (lit "[]")) [])
           ∧ legacy w' = Some (lit "[]")).
Proof.
  split; [|split].
  - apply (loadItems_nothing_to_import sample_parse
             (stored_world [] None [])).
    + reflexivity.
    + left. reflexivity.
  - apply (loadItems_nothing_to_import sample_parse
             (stored_world [] (Some (lit "[{")) [])).
    + reflexivity.
    + right. left. exists (lit "[{"). split; reflexivity.
  - apply (loadItems_nothing_to_import sample_parse
             (stored_world [] (Some (lit "[]")) [])).
    + reflexivity.
    + right. right. exists (lit "[]"). split; reflexivity.
Defined.

(** Text that is not JSON in the slot: startup logs the error of
    [JSON.parse] and goes on with the empty list. *)
Example loadItems_malformed_slot :
  let r := loadItems sample_parse (stored_world [] (Some (lit "[{")) []) in
  fst r = Resolved tt
  ∧ console (snd r) = [("Error loading items:"%string, SyntaxError)]
  ∧ items (app (snd r)) = []
  ∧ isLoading (app (snd r)) = false.
Proof. by vm_compute. Qed.

Lemma loadItems_migration_witness :
  (∃ w', loadItems sample_parse (legacy_world []) = (Resolved tt, w')
         ∧ store w' = store_of_items [headphones]
         ∧ items (app w') = [headphones]
         ∧ legacy w' = None
         ∧ isLoading (app w') = false)
  ∧ (store (snd (loadItems sample_parse
                   (legacy_world [false; false; false; false; true])))
     = store (legacy_world [false; false; false; false; true])
     ∧ items (app (snd (loadItems sample_parse
                          (legacy_world [false; false; false; false; true]))))
       = []
     ∧ legacy (snd (loadItems sample_parse
                      (legacy_world [false; false; false; false; true])))
       = Some legacy_text)
  ∧ (∃ w', loadItems sample_parse (stored_world [lamp] (Some legacy_text) [])
           = (Resolved tt, w')
           ∧ store w' = store (stored_world [lamp] (Some legacy_text) [])
           ∧ items (app w') = [lamp]
           ∧ legacy w' = Some legacy_text
           ∧ isLoading (app w') = false).
Proof.
  split; [|split].
  - destruct (loadItems_migration sample_parse eq_refl (legacy_world [])
                (snd (getAllItems (legacy_world []))) [] eq_refl)
      as [Hempty _].
    destruct (Hempty eq_refl legacy_text [headphones] eq_refl eq_refl)
      as [Hresolved _]; [discriminate|].
    apply (Hresolved (snd (saveAllItems [headphones]
                             (snd (getAllItems (legacy_world [])))))).
    reflexivity.
  - destruct (loadItems_migration sample_parse eq_refl
                (legacy_world [false; false; false; false; true])
                (snd (getAllItems
                        (legacy_world [false; false; false; false; true])))
                [] eq_refl)
      as [Hempty _].
    destruct (Hempty eq_refl legacy_text [headphones] eq_refl eq_refl)
      as [_ Hfailed]; [discriminate|].
    apply Hfailed. discriminate.
  - destruct (loadItems_migration sample_parse eq_refl
                (stored_world [lamp] (Some legacy_text) [])
                (snd (getAllItems
                        (stored_world [lamp] (Some legacy_text) [])))
                [lamp] eq_refl)
      as [_ Hloaded].
    apply Hloaded. discriminate.
Defined.

(** C4 as it was stated fails. Load-all resolves with the empty
    collection, the slot holds the serialization of [[headphones]], and the
    put of the migration fails: startup ends with an empty store, an empty
    list in memory and the slot as it was, the error logged. *)
Lemma loadItems_migration_write_failure :
  fst (getAllItems (legacy_world [false; false; false; false; true]))
  = Resolved []
  ∧ legacy (legacy_world [false; false; false; false; true])
    = Some legacy_text
  ∧ sample_parse legacy_text = Some [headphones]
  ∧ fst (loadItems sample_parse
           (legacy_world [false; false; false; false; true]))
    = Resolved tt
  ∧ store (snd (loadItems sample_parse
                  (legacy_world [false; false; false; false; true])))
    ≠ store_of_items [headphones]
  ∧ items (app (snd (loadItems sample_parse
                       (legacy_world [false; false; false; false; true]))))
    ≠ [headphones]
  ∧ legacy (snd (loadItems sample_parse
                   (legacy_world [false; false; false; false; true])))
    ≠ None
  ∧ console (snd (loadItems sample_parse
                    (legacy_world [false; false; false; false; true])))
    = [("Error loading items:"%string, AddFailed)].
Proof.
  split_and!; try reflexivity; discriminate.
Qed.


(** * Further properties of the layer *)

(** ** Schedules without a failure *)

Lemma serene_quiet n w : serene w → quiet n w.
Proof.
  unfold serene, quiet. generalize (sched w). clear w.
  induction n as [|n IH]; intros [|[] f]; cbn; auto.
Qed.

Lemma request_serene {A} e (a : A) w :
  serene w →
  request e a w = (Resolved a, set_sched (tail (sched w)) w)
  ∧ serene (set_sched (tail (sched w)) w).
Proof.
  destruct w as [s l c f ap]. unfold serene. cbn [sched].
  destruct f as [|[] f]; cbn; try done; intros H; by run.
Qed.

Lemma put_all_serene l t w :
  serene w →
  ∃ w', put_all l t w = (Resolved (fold_left put l t), w')
        ∧ serene w' ∧ same_but_sched w w'.
Proof.
  revert t w. induction l as [|x l IH]; intros t w Hw; cbn.
  - exists w. by split_and!.
  - unfold bind. destruct (request_serene AddFailed (put t x) w Hw) as [-> Hw'].
    destruct (IH (put t x) _ Hw') as (w' & -> & Hs & Hsame).
    exists w'. split_and!; [done..|].
    destruct Hsame as (?&?&?&?). by split_and!.
Qed.

(** With an engine that fails nothing a replace-all resolves, and the
    engine has not failed anything afterwards either. *)
Lemma saveAllItems_serene l w :
  serene w →
  ∃ w', saveAllItems l w = (Resolved tt, w')
        ∧ store w' = store_of_items l
        ∧ serene w' ∧ same_page w w' ∧ console w' = console w.
Proof.
  intros Hw. rewrite saveAllItems_unfold.
  destruct (request_serene OpenFailed tt w Hw) as [-> Hw1].
  unfold saveAllItems_promise, bind.
  destruct (request_serene ClearFailed (∅ : Store) _ Hw1) as [-> Hw2].
  destruct (put_all_serene l ∅ _ Hw2) as (w3 & -> & Hw3 & Hsame).
  unfold commit, bind, verdict, modify, ret.
  destruct w3 as [s3 l3 c3 f3 a3]. unfold serene in Hw3. cbn [sched] in *.
  destruct Hsame as (_ & Hl & Hc & Ha). cbn in Hl, Hc, Ha.
  destruct f3 as [|[] f3]; cbn in *; try done;
    eexists; (split; [reflexivity|]); by split_and!.
Qed.

Lemma getAllItems_serene w :
  serene w →
  ∃ w', getAllItems w = (Resolved (getAll (store w)), w')
        ∧ serene w' ∧ same_but_sched w w'.
Proof.
  intros Hw. rewrite getAllItems_quiet by by apply serene_quiet.
  eexists. split; [reflexivity|]. split; [|done].
  unfold serene in *. cbn. destruct (sched w) as [|[] [|[] f]]; by cbn in *.
Qed.

(** ** The single-record operations *)

(** X1. [saveItem] is an upsert. When the open, the put and the commit
    succeed it resolves with the key of the record, the record is the one
    stored under its id, and every other key holds what it held. When it
    does not resolve it was rejected by the open or by the put, and the
    contents are the ones from before. *)
Theorem saveItem_upsert (item : Item) (w : World) :
  (quiet 3 w →
   ∃ w', saveItem item w = (Resolved (id item), w')
         ∧ store w' !! id item = Some item
         ∧ (∀ k, k ≠ id item → store w' !! k = store w !! k))
  ∧ (fst (saveItem item w) ≠ Resolved (id item) →
     store (snd (saveItem item w)) = store w
     ∧ (fst (saveItem item w) = Rejected OpenFailed
        ∨ fst (saveItem item w) = Rejected SaveFailed)).
Proof.
  destruct w as [s l c f a]. unfold quiet. cbn [sched store].
  destruct f as [|[] [|[] [|[] f]]]; run; cbn; split; try done;
    try (intros _; eexists; split; [reflexivity|]; unfold put; cbn;
         split; [apply lookup_insert_eq|];
         intros k Hk; by apply lookup_insert_ne);
    intros _; auto.
Qed.

Lemma saveItem_upsert_witness :
  ∃ w', saveItem television (stored_world [lamp] None [])
        = (Resolved 1001, w')
        ∧ store w' !! 1001 = Some television
        ∧ (∀ k, k ≠ 1001 →
                store w' !! k = store (stored_world [lamp] None []) !! k).
Proof.
  destruct (saveItem_upsert television (stored_world [lamp] None []))
    as [Hquiet _].
  apply Hquiet. reflexivity.
Defined.

Lemma getAll_NoDup s : keyed s → NoDup (getAll s).
Proof. intros Hs. eapply NoDup_fmap_1, getAll_NoDup_ids, Hs. Qed.

(** X2. [deleteItem] removes the record of the key and nothing else. With
    every record under its own id, and when the open, the delete and the
    commit succeed, the call resolves, the key is free afterwards, every
    other key holds what it held, and what load-all would hand back is what
    it handed back before without the record of that id. *)
Theorem deleteItem_removes (k : Z) (w : World) :
  keyed (store w) →
  quiet 3 w →
  ∃ w', deleteItem k w = (Resolved tt, w')
        ∧ store w' !! k = None
        ∧ (∀ j, j ≠ k → store w' !! j = store w !! j)
        ∧ getAll (store w') ≡ₚ without k (getAll (store w)).
Proof.
  intros Hkeyed Hquiet.
  assert (deleteItem k w
          = (Resolved tt,
             set_store (delete k (store w))
               (set_sched (drop 3 (sched w)) w))) as ->.
  { destruct w as [s l c f a]. unfold quiet in Hquiet. cbn [sched] in Hquiet.
    destruct f as [|[] [|[] [|[] f]]]; try done; by run. }
  eexists. split; [reflexivity|]. cbn [store set_store].
  split_and!.
  - apply lookup_delete_eq.
  - intros j Hj. by apply lookup_delete_ne.
  - apply NoDup_Permutation.
    + by apply getAll_NoDup, keyed_delete.
    + unfold without. apply NoDup_filter. by apply getAll_NoDup.
    + intros item. unfold without. rewrite list_elem_of_filter.
      rewrite !elem_of_getAll_keyed by (done || by apply keyed_delete).
      rewrite lookup_delete. case_decide as Hk; intuition congruence.
Qed.

Lemma deleteItem_removes_witness :
  ∃ w', deleteItem 7 (stored_world [lamp; headphones] None [])
        = (Resolved tt, w')
        ∧ store w' !! 7 = None
        ∧ (∀ j, j ≠ 7 →
                store w' !! j
                = store (stored_world [lamp; headphones] None []) !! j)
        ∧ getAll (store w')
          ≡ₚ without 7 (getAll (store (stored_world [lamp; headphones]
                                                    None []))).
Proof.
  apply (deleteItem_removes 7 (stored_world [lamp; headphones] None [])).
  - apply keyed_store_of_items.
  - reflexivity.
Defined.

(** X3. [saveItem] and [deleteItem] resolve when their request succeeds,
    not when their transaction completes. When the open and the request
    succeed and the commit then fails, both calls resolve all the same,
    and the store holds what it held: nothing was saved, nothing was
    deleted. *)
Theorem resolves_before_commit (item : Item) (k : Z) (w : World)
    (f : list bool) :
  sched w = false :: false :: true :: f →
  (fst (saveItem item w) = Resolved (id item)
   ∧ store (snd (saveItem item w)) = store w)
  ∧ (fst (deleteItem k w) = Resolved tt
     ∧ store (snd (deleteItem k w)) = store w).
Proof. destruct w as [s l c f' a]. cbn [sched]. intros ->. by run. Qed.

Lemma resolves_before_commit_witness :
  (fst (saveItem television
          (stored_world [lamp] None [false; false; true]))
   = Resolved 1001
   ∧ store (snd (saveItem television
                   (stored_world [lamp] None [false; false; true])))
     = store (stored_world [lamp] None [false; false; true]))
  ∧ (fst (deleteItem 7 (stored_world [lamp] None [false; false; true]))
     = Resolved tt
     ∧ store (snd (deleteItem 7
                     (stored_world [lamp] None [false; false; true])))
       = store (stored_world [lamp] None [false; false; true])).
Proof.
  apply (resolves_before_commit television 7
           (stored_world [lamp] None [false; false; true]) []).
  reflexivity.
Defined.

(** ** What the layer logs, keeps and reads *)

Lemma saveAllItems_promise_console l w :
  console (snd (saveAllItems_promise l w)) = console w.
Proof.
  unfold saveAllItems_promise, bind.
  pose proof (request_sched ClearFailed (∅ : Store) w) as (_&_&Hc&_).
  destruct (request ClearFailed _ w) as [[t0|e|] w1]; cbn in *; [|done..].
  rewrite <- Hc. clear Hc.
  pose proof (put_all_sched l t0 w1) as (_&_&Hp&_).
  destruct (put_all l t0 w1) as [[t|e|] w2]; cbn in *; [|done..].
  rewrite <- Hp. clear Hp.
  by destruct (commit_cases t w2) as [[-> _]|[-> _]].
Qed.

(** X4. The layer logs the failure of an open and no other. After
    [getAllItems], [saveItem], [deleteItem] and [saveAllItems] the console
    holds one more entry, under the label of the function, when the open
    failed, and is as before in every other run: the failure of a read, a
    put, a delete or a clear is handed to the caller unlogged. *)
Theorem layer_logs_open_failure (l : list Item) (item : Item) (k : Z)
    (w : World) :
  console (snd (getAllItems w)) = open_log "Error getting items:" w
  ∧ console (snd (saveItem item w)) = open_log "Error saving item:" w
  ∧ console (snd (deleteItem k w)) = open_log "Error deleting item:" w
  ∧ console (snd (saveAllItems l w)) = open_log "Error saving all items:" w.
Proof.
  split_and!.
  - destruct w as [s lg c f a]. destruct f as [|[] [|[] f]]; by run.
  - destruct w as [s lg c f a]. destruct f as [|[] [|[] [|[] f]]]; by run.
  - destruct w as [s lg c f a]. destruct f as [|[] [|[] [|[] f]]]; by run.
  - rewrite saveAllItems_unfold. unfold open_log.
    destruct (request_cases OpenFailed tt w) as [[-> Hh]|[-> Hh]].
    + rewrite saveAllItems_promise_console. cbn.
      by destruct (sched w) as [|[] f].
    + cbn. by destruct (sched w) as [|[] f].
Qed.

(** X5. Every record stays under its own id. A store in which each record
    sits under the key that is its id is such a store again after
    [getAllItems], [saveItem], [deleteItem] and [saveAllItems], whatever
    the engine fails. *)
Theorem layer_keeps_keyed (l : list Item) (item : Item) (k : Z) (w : World) :
  keyed (store w) →
  keyed (store (snd (getAllItems w)))
  ∧ keyed (store (snd (saveItem item w)))
  ∧ keyed (store (snd (deleteItem k w)))
  ∧ keyed (store (snd (saveAllItems l w))).
Proof.
  intros Hw. split_and!.
  - destruct (getAllItems_footprint w) as [Hs _]. by rewrite Hs.
  - destruct w as [s lg c f a]. cbn [store] in Hw.
    destruct f as [|[] [|[] [|[] f]]]; run; try done; by apply keyed_put.
  - destruct w as [s lg c f a]. cbn [store] in Hw.
    destruct f as [|[] [|[] [|[] f]]]; run; try done; by apply keyed_delete.
  - pose proof (saveAllItems_store l w) as Hs.
    destruct (saveAllItems l w) as [[[]|e|] w']; cbn in *; rewrite Hs;
      try done; apply keyed_store_of_items.
Qed.

Lemma layer_keeps_keyed_witness :
  keyed (store (snd (getAllItems (stored_world [lamp] None []))))
  ∧ keyed (store (snd (saveItem television (stored_world [lamp] None []))))
  ∧ keyed (store (snd (deleteItem 7 (stored_world [lamp] None []))))
  ∧ keyed (store (snd (saveAllItems [headphones]
                         (stored_world [lamp] None [])))).
Proof.
  apply (layer_keeps_keyed [headphones] television 7
           (stored_world [lamp] None [])).
  apply keyed_store_of_items.
Defined.

(** X6. Load-all only reads. Whatever the engine fails, [getAllItems]
    leaves the contents of the store, the legacy slot and the React state
    as they are, and a collection it resolves with is empty or is the
    collection of the records of the store: it hands back no record the
    store does not hold. *)
Theorem getAllItems_reads_only (w : World) :
  store (snd (getAllItems w)) = store w
  ∧ legacy (snd (getAllItems w)) = legacy w
  ∧ app (snd (getAllItems w)) = app w
  ∧ ∀ l, fst (getAllItems w) = Resolved l →
         (l = [] ∨ l = getAll (store w))
         ∧ ∀ item, item ∈ l → ∃ k, store w !! k = Some item.
Proof.
  destruct (getAllItems_footprint w) as [Hs [Hl Ha]]. split_and!; [done..|].
  intros l Hr.
  assert (l = [] ∨ l = getAll (store w)) as Hl'.
  { destruct w as [s lg c f a].
    destruct f as [|[] [|[] f]]; revert Hr; run; intros [= <-]; auto. }
  split; [done|]. intros item Hin.
  destruct Hl' as [->| ->]; [by apply elem_of_nil in Hin|].
  by apply elem_of_getAll.
Qed.

Lemma last_filter_id (l : list Item) (k : Z) (item : Item) :
  NoDup (id <$> l) →
  last (filter (λ j, id j = k) l) = Some item ↔ item ∈ l ∧ id item = k.
Proof.
  induction l as [|x l IH]; intros Hl.
  - cbn. split; [done|]. by intros [?%elem_of_nil _].
  - apply NoDup_cons in Hl as [Hx Hl]. specialize (IH Hl).
    rewrite filter_cons. case_decide as Hid.
    + assert (filter (λ j, id j = k) l = []) as ->.
      { apply filter_none. intros y Hy Heq. apply Hx.
        rewrite Hid, <- Heq. by apply list_elem_of_fmap_2. }
      cbn. split.
      * intros [= ->]. split; [left|done].
      * intros [[->|Hin]%elem_of_cons Hk]; [done|].
        exfalso. apply Hx. rewrite Hid, <- Hk. by apply list_elem_of_fmap_2.
    + rewrite IH. split.
      * intros [? ?]. split; [by right|done].
      * intros [[->|Hin]%elem_of_cons Hk]; done.
Qed.

(** The records of a store, put into an empty store, make the store
    again. *)
Lemma store_of_items_getAll s : keyed s → store_of_items (getAll s) = s.
Proof.
  intros Hs. apply map_eq. intros k. rewrite lookup_store_of_items.
  destruct (s !! k) as [item|] eqn:Hk.
  - apply last_filter_id; [by apply getAll_NoDup_ids|].
    split; [|by apply Hs]. apply elem_of_getAll. eauto.
  - destruct (last _) as [item|] eqn:Hlast; [|done].
    apply last_filter_id in Hlast as [Hin Hid]; [|by apply getAll_NoDup_ids].
    apply elem_of_getAll_keyed in Hin; [|done]. congruence.
Qed.

(** X7. Load-all and then replace-all give the store back. With every
    record under its own id: when [getAllItems], its open and its read
    succeeding, resolves with a collection, and the [saveAllItems] of that
    collection resolves, the contents of the store are what they were
    before the two calls. *)
Theorem load_then_save (w w1 w2 : World) (l : list Item) :
  keyed (store w) →
  quiet 2 w →
  getAllItems w = (Resolved l, w1) →
  saveAllItems l w1 = (Resolved tt, w2) →
  store w2 = store w.
Proof.
  intros Hkeyed Hquiet Hload Hsave.
  rewrite getAllItems_quiet in Hload by done. injection Hload as <- <-.
  pose proof (saveAllItems_store (getAll (store w))
                (set_sched (drop 2 (sched w)) w)) as Hstore.
  rewrite Hsave in Hstore. rewrite Hstore.
  by apply store_of_items_getAll.
Qed.

Lemma load_then_save_witness :
  store (snd (saveAllItems [lamp; headphones]
                (snd (getAllItems (stored_world [headphones; lamp] None [])))))
  = store (stored_world [headphones; lamp] None []).
Proof.
  apply (load_then_save (stored_world [headphones; lamp] None [])
           (snd (getAllItems (stored_world [headphones; lamp] None [])))
           (snd (saveAllItems [lamp; headphones]
                   (snd (getAllItems
                           (stored_world [headphones; lamp] None [])))))
           [lamp; headphones]).
  - apply keyed_store_of_items.
  - reflexivity.
  - reflexivity.
  - reflexivity.
Defined.

(** ** The effect that saves *)

Lemma saveItems_unfold w :
  saveItems w =
  if isLoading (app w) then (Resolved tt, w)
  else match saveAllItems (items (app w)) w with
       | (Rejected e, w') =>
           (Resolved tt,
            set_console (console w' ++ [("Error saving items:"%string, e)]) w')
       | r => r
       end.
Proof.
  unfold saveItems, bind, get, try_catch. cbn.
  destruct (isLoading (app w)); [done|].
  by destruct (saveAllItems _ w) as [[[]|e|] w'].
Qed.

(** X8. The effect that saves. [saveItems] never rejects and never changes
    the legacy slot or the React state. While the list is loading it does
    nothing. Otherwise it replaces the contents of the store by the list in
    memory: when that replace-all resolves the store holds what the list
    holds, and when it is rejected the store holds what it held and the
    error is the last entry of the console, under 'Error saving items:'. *)
Theorem saveItems_effect (w : World) :
  (∀ e, fst (saveItems w) ≠ Rejected e)
  ∧ same_page w (snd (saveItems w))
  ∧ (isLoading (app w) = true → saveItems w = (Resolved tt, w))
  ∧ (isLoading (app w) = false →
     fst (saveAllItems (items (app w)) w) = Resolved tt →
     fst (saveItems w) = Resolved tt ∧ in_sync (snd (saveItems w)))
  ∧ (isLoading (app w) = false →
     ∀ e, fst (saveAllItems (items (app w)) w) = Rejected e →
          fst (saveItems w) = Resolved tt
          ∧ store (snd (saveItems w)) = store w
          ∧ last (console (snd (saveItems w)))
            = Some ("Error saving items:"%string, e)).
Proof.
  rewrite saveItems_unfold.
  pose proof (saveAllItems_store (items (app w)) w) as Hstore.
  pose proof (saveAllItems_page (items (app w)) w) as Hpage.
  destruct (isLoading (app w)) eqn:Hload.
  - split_and!; try done.
  - destruct (saveAllItems (items (app w)) w) as [[[]|e|] w'];
      cbn in *; split_and!; try done.
    + intros _ _. split; [done|]. unfold in_sync.
      destruct Hpage as [_ Ha]. by rewrite Ha.
    + intros _ e' [= <-]. split_and!; [done..|]. cbn. apply last_snoc.
Qed.

Lemma saveItems_effect_witness :
  saveItems (stored_world [lamp] None []) = (Resolved tt,
                                             stored_world [lamp] None [])
  ∧ (fst (saveItems (set_app (set_items [headphones]
                                (set_isLoading false initial_app))
                       (stored_world [lamp] None [])))
     = Resolved tt
     ∧ in_sync (snd (saveItems (set_app (set_items [headphones]
                                           (set_isLoading false initial_app))
                                  (stored_world [lamp] None [])))))
  ∧ (fst (saveItems (set_app (set_isLoading false initial_app)
                       (stored_world [lamp] None [false; true])))
     = Resolved tt
     ∧ store (snd (saveItems (set_app (set_isLoading false initial_app)
                                (stored_world [lamp] None [false; true]))))
       = store (stored_world [lamp] None [false; true])
     ∧ last (console (snd (saveItems
                             (set_app (set_isLoading false initial_app)
                                (stored_world [lamp] None [false; true])))))
       = Some ("Error saving items:"%string, ClearFailed)).
Proof.
  split; [|split].
  - apply (saveItems_effect (stored_world [lamp] None [])). reflexivity.
  - apply (saveItems_effect
             (set_app (set_items [headphones]
                         (set_isLoading false initial_app))
                (stored_world [lamp] None []))); reflexivity.
  - apply (saveItems_effect
             (set_app (set_isLoading false initial_app)
                (stored_world [lamp] None [false; true]))); reflexivity.
Defined.

(** ** Startup, whatever happens *)

Section StartupAlways.

Variable JSON_parse : jsstring → option (list Item).

(** The migration changes nothing of the React state but the list. *)
Lemma migrate_isLoading w :
  isLoading (app (snd (migrate JSON_parse w))) = isLoading (app w).
Proof.
  unfold migrate, bind, get, parse.
  destruct (legacy w) as [s|]; cbn; [|done].
  destruct (truthy s); cbn; [|done].
  destruct (JSON_parse s) as [[|x l]|]; cbn; [done| |done].
  pose proof (saveAllItems_page (x :: l) w) as [_ Ha].
  destruct (saveAllItems (x :: l) w) as [[[]|e|] w']; cbn in *;
    by rewrite Ha.
Qed.

(** X9. Startup does not fail. Whatever the store and the slot hold and
    whatever the engine fails, [loadItems] is never rejected. When it
    resolves the list is no longer loading. It stays pending only when the
    replace-all of a migration stays pending, and the list is then loading
    for ever. *)
Theorem loadItems_settles (w : World) :
  match loadItems JSON_parse w with
  | (Resolved _, w') => isLoading (app w') = false
  | (Rejected _, _) => False
  | (Pending, w') =>
      isLoading (app w') = true
      ∧ fst (getAllItems w) = Resolved []
      ∧ ∃ s l, legacy w = Some s ∧ JSON_parse s = Some l ∧ l ≠ []
               ∧ fst (saveAllItems l (snd (getAllItems w))) = Pending
  end.
Proof.
  pose proof (getAllItems_footprint w) as [_ [Hleg _]].
  destruct (getAllItems w) as [r w1] eqn:Hload.
  destruct (getAllItems_outcome w) as [[loaded Hr]|Hr];
    rewrite Hload in Hr; cbn in Hr, Hleg; subst r.
  - rewrite (loadItems_loaded _ _ _ _ Hload). cbn zeta.
    destruct loaded as [|x loaded]; cbn [length Nat.eqb]; [|done].
    set (a0 := set_items [] (set_isLoading true (app w))).
    pose proof (migrate_isLoading (set_app a0 w1)) as Hi.
    destruct (migrate JSON_parse (set_app a0 w1)) as [[[]|e|] w2] eqn:Hm;
      [done..|].
    cbn in Hi. split_and!; [rewrite Hi; reflexivity|done|].
    revert Hm. unfold migrate, bind, get, parse. cbn [legacy set_app].
    rewrite Hleg. destruct (legacy w) as [s|]; cbn; [|done].
    destruct (truthy s); cbn; [|done].
    destruct (JSON_parse s) as [[|x l]|] eqn:Hp; cbn; [done| |done].
    rewrite (oblivious_saveAllItems (x :: l) a0 w1).
    destruct (saveAllItems (x :: l) w1) as [[[]|e|] w3] eqn:Hs; try done.
    intros _. exists s, (x :: l). by rewrite Hs.
  - by rewrite (loadItems_rejected _ _ _ _ Hload).
Qed.

End StartupAlways.

(** ** Startup and the first save *)

Section StartupThenSave.

Variable JSON_parse : jsstring → option (list Item).

(** [loadItems] with nothing to import, after a load-all that resolved:
    the collection is in memory, the list is no longer loading, and
    nothing else has changed but the console. *)
Lemma loadItems_nothing w w1 loaded :
  getAllItems w = (Resolved loaded, w1) →
  nothing_to_import JSON_parse (legacy w) →
  ∃ c, loadItems JSON_parse w =
       (Resolved tt,
        set_console c
          (set_app (set_isLoading false (set_items loaded (app w))) w1)).
Proof.
  intros Hload Hslot.
  pose proof (getAllItems_footprint w) as [_ [Hleg _]].
  rewrite Hload in Hleg. cbn in Hleg.
  rewrite (loadItems_loaded _ _ _ _ Hload). cbn zeta.
  destruct (length loaded =? 0)%nat.
  - destruct (migrate_nothing JSON_parse
                (set_app (set_items loaded (set_isLoading true (app w))) w1))
      as [->| ->]; [by cbn; rewrite Hleg|..]; eexists; reflexivity.
  - eexists. reflexivity.
Qed.

(** X10. A load that fails, and the save that follows. The list in memory
    is empty, as on mount, and the slot has nothing to import. When the
    open or the read of load-all fails and the engine fails nothing
    afterwards, startup and the save of its effect both resolve, and the
    store is empty afterwards, whatever it held: the empty list that stands
    in for the collection that could not be read is written back over
    it. *)
Theorem startup_after_failed_load (w : World) (f : list bool) :
  items (app w) = [] →
  nothing_to_import JSON_parse (legacy w) →
  sched w = true :: f ∨ sched w = false :: true :: f →
  forallb negb f = true →
  ∃ w', startup JSON_parse w = (Resolved tt, w')
        ∧ store w' = ∅
        ∧ items (app w') = []
        ∧ legacy w' = legacy w.
Proof.
  intros Hitems Hslot Hsched Hf. unfold startup, bind.
  destruct Hsched as [Hs|Hs].
  - destruct (loadItems_nothing w _ [] (getAllItems_open_fails w f Hs) Hslot)
      as [c ->].
    match goal with |- context [saveItems ?w2] =>
      rewrite (saveItems_unfold w2);
      destruct (saveAllItems_serene (items (app w2)) w2)
        as (w' & Hsave & Hstore & _ & [Hleg Happ] & _) end; [done|].
    cbn [app set_console set_app isLoading set_isLoading items set_items]
      in *.
    rewrite Hsave. exists w'. split_and!; [done|done|by rewrite Happ|].
    by rewrite Hleg.
  - rewrite (loadItems_rejected _ _ _ _ (getAllItems_read_fails w f Hs)).
    match goal with |- context [saveItems ?w2] =>
      rewrite (saveItems_unfold w2);
      destruct (saveAllItems_serene (items (app w2)) w2)
        as (w' & Hsave & Hstore & _ & [Hleg Happ] & _) end; [done|].
    cbn [app set_console set_app isLoading set_isLoading items set_items]
      in *.
    rewrite Hsave. exists w'. rewrite Hitems in Hstore.
    split_and!; [done|done|by rewrite Happ|]. by rewrite Hleg.
Qed.

(** X11. Startup with an engine that fails nothing. With every record
    under its own id and nothing to import, startup and the save of its
    effect resolve, the list in memory is the collection of the store, the
    list is no longer loading, and the store and the slot hold what they
    held: writing back what was read changes nothing. *)
Theorem startup_nominal (w : World) :
  keyed (store w) →
  serene w →
  nothing_to_import JSON_parse (legacy w) →
  ∃ w', startup JSON_parse w = (Resolved tt, w')
        ∧ store w' = store w
        ∧ items (app w') = getAll (store w)
        ∧ isLoading (app w') = false
        ∧ legacy w' = legacy w.
Proof.
  intros Hkeyed Hserene Hslot. unfold startup, bind.
  destruct (getAllItems_serene w Hserene)
    as (w1 & Hload & Hs1 & (_ & Hleg1 & _ & _)).
  destruct (loadItems_nothing w w1 _ Hload Hslot) as [c ->].
  match goal with |- context [saveItems ?w2] =>
    rewrite (saveItems_unfold w2);
    destruct (saveAllItems_serene (items (app w2)) w2)
      as (w' & Hsave & Hstore & _ & [Hleg Happ] & _) end; [done|].
  cbn [app set_console set_app isLoading set_isLoading items set_items
       legacy] in *.
  rewrite Hsave. exists w'. split_and!; [done| |by rewrite Happ..|].
  - rewrite Hstore. by apply store_of_items_getAll.
  - by rewrite Hleg.
Qed.

End StartupThenSave.

Lemma startup_after_failed_load_witness :
  (∃ w', startup sample_parse (stored_world [lamp; headphones] None [true])
         = (Resolved tt, w')
         ∧ store w' = ∅
         ∧ items (app w') = []
         ∧ legacy w' = None)
  ∧ (∃ w', startup sample_parse
             (stored_world [lamp; headphones] None [false; true])
           = (Resolved tt, w')
           ∧ store w' = ∅
           ∧ items (app w') = []
           ∧ legacy w' = None).
Proof.
  split.
  - apply (startup_after_failed_load sample_parse
             (stored_world [lamp; headphones] None [true]) []).
    + reflexivity.
    + left. reflexivity.
    + left. reflexivity.
    + reflexivity.
  - apply (startup_after_failed_load sample_parse
             (stored_world [lamp; headphones] None [false; true]) []).
    + reflexivity.
    + left. reflexivity.
    + right. reflexivity.
    + reflexivity.
Defined.

Lemma startup_nominal_witness :
  ∃ w', startup sample_parse (stored_world [lamp; headphones] None [])
        = (Resolved tt, w')
        ∧ store w' = store (stored_world [lamp; headphones] None [])
        ∧ items (app w')
          = getAll (store (stored_world [lamp; headphones] None []))
        ∧ isLoading (app w') = false
        ∧ legacy w' = None.
Proof.
  apply (startup_nominal sample_parse
           (stored_world [lamp; headphones] None [])).
  - apply keyed_store_of_items.
  - reflexivity.
  - left. reflexivity.
Defined.

(** ** Handlers and the store *)





(** ** Handlers on the list *)

Lemma item_eta (item : Item) :
  mkItem (id item) (name item) (link item) (price item) (bought item) = item.
Proof. by destruct item. Qed.

Lemma set_items_same (a : AppState) : set_items (items a) a = a.
Proof. by destruct a. Qed.

(** X13. Toggling. [handleToggleBought] keeps the number of items and,
    position by position, their id, name, link and price; it flips the
    bought flag of the items of the id and of no other item. Toggling the
    same id twice gives back the state from before. *)
Theorem handleToggleBought_flips (k : Z) (a : AppState) :
  length (items (handleToggleBought k a)) = length (items a)
  ∧ (∀ n item,
       items a !! n = Some item →
       ∃ item',
         items (handleToggleBought k a) !! n = Some item'
         ∧ id item' = id item ∧ name item' = name item
         ∧ link item' = link item ∧ price item' = price item
         ∧ (id item = k → bought item' = negb (bought item))
         ∧ (id item ≠ k → item' = item))
  ∧ handleToggleBought k (handleToggleBought k a) = a.
Proof.
  unfold handleToggleBought. cbn [items set_items]. split_and!.
  - by rewrite length_fmap.
  - intros n item Hn. rewrite list_lookup_fmap, Hn. cbn.
    eexists. split; [reflexivity|]. case_decide; cbn; by split_and!.
  - rewrite <- list_fmap_compose.
    rewrite (list_fmap_ext _ Datatypes.id (items a)).
    + rewrite list_fmap_id. by destruct a.
    + intros n item _. unfold compose. cbn.
      destruct (decide (id item = k)) as [Hk|Hk]; cbn.
      * rewrite decide_True by done. cbn. rewrite negb_involutive.
        apply item_eta.
      * by rewrite decide_False.
Qed.

(** X14. The two lists of the page. Every item is in exactly one of
    [needToBuyItems] and [boughtItems]: together they are the list, up to
    order, and their lengths add up to its length. *)
Theorem lists_partition (l : list Item) :
  needToBuyItems l ++ boughtItems l ≡ₚ l
  ∧ (length (needToBuyItems l) + length (boughtItems l) = length l)%nat
  ∧ ∀ item, item ∈ needToBuyItems l → item ∉ boughtItems l.
Proof.
  assert (needToBuyItems l ++ boughtItems l ≡ₚ l) as Hperm.
  { unfold needToBuyItems, boughtItems.
    induction l as [|x l IH]; [done|].
    rewrite !filter_cons. destruct (bought x) eqn:Hb.
    - rewrite decide_False, decide_True by done.
      rewrite <- Permutation_middle. by constructor.
    - rewrite decide_True, decide_False by done. cbn. by constructor. }
  split_and!.
  - done.
  - by rewrite <- length_app, Hperm.
  - unfold needToBuyItems, boughtItems. intros item.
    rewrite !list_elem_of_filter. intros [Hf _] [Ht _]. congruence.
Qed.

(** ** Trimming *)

Lemma trimStart_idem s : trimStart (trimStart s) = trimStart s.
Proof.
  induction s as [|c s IH]; [done|]. cbn.
  destruct (isWhiteSpace c) eqn:Hc; [done|]. cbn. by rewrite Hc.
Qed.

Lemma trimStart_snoc c s :
  isWhiteSpace c = false → trimStart (s ++ [c]) = trimStart s ++ [c].
Proof.
  intros Hc. induction s as [|d s IH]; cbn; [by rewrite Hc|].
  by destruct (isWhiteSpace d).
Qed.

Lemma trimEnd_cons c s :
  isWhiteSpace c = false → trimEnd (c :: s) = c :: trimEnd s.
Proof.
  intros Hc. unfold trimEnd. cbn [rev].
  by rewrite trimStart_snoc, rev_app_distr.
Qed.

Lemma trimEnd_idem s : trimEnd (trimEnd s) = trimEnd s.
Proof. unfold trimEnd. by rewrite rev_involutive, trimStart_idem. Qed.

Lemma trimStart_head s :
  trimStart s = []
  ∨ ∃ c t, trimStart s = c :: t ∧ isWhiteSpace c = false.
Proof.
  induction s as [|c s IH]; [by left|]. cbn.
  destruct (isWhiteSpace c) eqn:Hc; [done|]. right. eauto.
Qed.

(** Trimming what is trimmed changes nothing. *)
Lemma trim_idem s : trim (trim s) = trim s.
Proof.
  unfold trim. destruct (trimStart_head s) as [->|(c & t & -> & Hc)]; [done|].
  rewrite trimEnd_cons by done. cbn. rewrite Hc.
  rewrite <- trimEnd_cons by done. apply trimEnd_idem.
Qed.

Lemma trimmed_trim s : trim s ≠ [] → trimmed (trim s).
Proof. intros Hs. split; [apply trim_idem | done]. Qed.

Lemma filled_trimmed d :
  filled d = true →
  trimmed (trim (form_name d)) ∧ trimmed (trim (form_link d))
  ∧ trimmed (trim (form_price d)).
Proof.
  intros (?&?&?)%filled_spec. split_and!; by apply trimmed_trim.
Qed.

Lemma filled_blank : filled blank_form = false.
Proof. reflexivity. Qed.

(** ** Handlers, again *)

(** X15. Submitting twice. After [handleAddItem] the form is blank when
    the item was added and is as before when it was not, so a second
    [handleAddItem] right after the first changes nothing: one item at most
    is added. The same holds of [handleSaveEdit], which also closes the
    edit it saves. *)
Theorem submit_twice (t1 t2 k1 k2 : Z) (a : AppState) :
  handleAddItem t2 (handleAddItem t1 a) = handleAddItem t1 a
  ∧ handleSaveEdit k2 (handleSaveEdit k1 a) = handleSaveEdit k1 a
  ∧ (filled (formData a) = true → formData (handleAddItem t1 a) = blank_form)
  ∧ (filled (editData a) = true →
     editData (handleSaveEdit k1 a) = blank_form
     ∧ editingId (handleSaveEdit k1 a) = None).
Proof.
  split_and!.
  - unfold handleAddItem at 2. destruct (filled (formData a)) eqn:Hf.
    + unfold handleAddItem. cbn [formData set_formData].
      by rewrite filled_blank, Hf.
    + unfold handleAddItem. by rewrite Hf.
  - unfold handleSaveEdit at 2. destruct (filled (editData a)) eqn:Hf.
    + unfold handleSaveEdit. cbn [editData set_editData].
      by rewrite filled_blank, Hf.
    + unfold handleSaveEdit. by rewrite Hf.
  - intros Hf. unfold handleAddItem. by rewrite Hf.
  - intros Hf. unfold handleSaveEdit. by rewrite Hf.
Qed.

Lemma submit_twice_witness :
  formData (handleAddItem 1700000000000
              (typing_app (mkForm (lit " Lamp ")
                                  (lit "https://shop.example/lamp")
                                  (lit "40 "))))
  = blank_form
  ∧ editData (handleSaveEdit 1000 editing_app) = blank_form
  ∧ editingId (handleSaveEdit 1000 editing_app) = None.
Proof.
  split.
  - destruct (submit_twice 1700000000000 0 0 0
                (typing_app (mkForm (lit " Lamp ")
                                    (lit "https://shop.example/lamp")
                                    (lit "40 "))))
      as (_ & _ & Hform & _).
    apply Hform. reflexivity.
  - destruct (submit_twice 0 0 1000 0 editing_app) as (_ & _ & _ & Hedit).
    apply Hedit. reflexivity.
Defined.

(** X16. Ids. [handleSaveEdit] and [handleToggleBought] leave the ids of
    the list as they are, position by position. A list without two items
    of one id is such a list again after [handleAddItem], provided the time
    of the call is the id of no item, and after the removal of an id; an
    item added at a time that is the id of an item shares that id. *)
Theorem handlers_and_ids (now k : Z) (a : AppState) :
  id <$> items (handleSaveEdit k a) = id <$> items a
  ∧ id <$> items (handleToggleBought k a) = id <$> items a
  ∧ (NoDup (id <$> items a) → now ∉ id <$> items a →
     NoDup (id <$> items (handleAddItem now a)))
  ∧ (NoDup (id <$> items a) → NoDup (id <$> without k (items a)))
  ∧ (filled (formData a) = true → now ∈ id <$> items a →
     ¬ NoDup (id <$> items (handleAddItem now a))).
Proof.
  split_and!.
  - unfold handleSaveEdit. destruct (filled (editData a)); [|done].
    cbn [items set_items set_editData set_editingId].
    rewrite <- list_fmap_compose. apply list_fmap_ext.
    intros n item _. unfold compose. by case_decide.
  - unfold handleToggleBought. cbn [items set_items].
    rewrite <- list_fmap_compose. apply list_fmap_ext.
    intros n item _. unfold compose. by case_decide.
  - intros Hnd Hnow. unfold handleAddItem.
    destruct (filled (formData a)); [|done].
    cbn [items set_items set_formData]. rewrite fmap_app. cbn.
    apply NoDup_app. split_and!; [done| |apply NoDup_singleton].
    intros x Hx ->%list_elem_of_singleton. done.
  - intros Hnd. unfold without. induction (items a) as [|x l IH]; [done|].
    cbn in Hnd. apply NoDup_cons in Hnd as [Hx Hnd].
    rewrite filter_cons. case_decide; [|by apply IH].
    cbn. apply NoDup_cons. split; [|by apply IH].
    intros Hin. apply Hx. apply list_elem_of_fmap in Hin as (y & -> & Hy).
    apply list_elem_of_filter in Hy as [_ Hy]. by apply list_elem_of_fmap_2.
  - intros Hf Hnow Hnd. unfold handleAddItem in Hnd. rewrite Hf in Hnd.
    cbn [items set_items set_formData] in Hnd. rewrite fmap_app in Hnd.
    apply NoDup_app in Hnd as (_ & Hdisj & _).
    apply (Hdisj now Hnow). cbn. left.
Qed.

Lemma handlers_and_ids_witness :
  NoDup (id <$> items (handleAddItem 1700000000000
                         (typing_app (mkForm (lit " Lamp ")
                                             (lit "https://shop.example/lamp")
                                             (lit "40 ")))))
  ∧ NoDup (id <$> without 1000 (items editing_app))
  ∧ ¬ NoDup (id <$> items (handleAddItem 1000
                             (typing_app (mkForm (lit " Lamp ")
                                            (lit "https://shop.example/lamp")
                                            (lit "40 "))))).
Proof.
  split; [|split].
  - destruct (handlers_and_ids 1700000000000 0
                (typing_app (mkForm (lit " Lamp ")
                                    (lit "https://shop.example/lamp")
                                    (lit "40 "))))
      as (_ & _ & Hadd & _ & _).
    apply Hadd.
    + apply NoDup_singleton.
    + intros [=]%list_elem_of_singleton.
  - destruct (handlers_and_ids 0 1000 editing_app) as (_ & _ & _ & Hdel & _).
    apply Hdel.
    apply NoDup_cons. split; [|apply NoDup_singleton].
    intros [=]%list_elem_of_singleton.
  - destruct (handlers_and_ids 1000 0
                (typing_app (mkForm (lit " Lamp ")
                                    (lit "https://shop.example/lamp")
                                    (lit "40 "))))
      as (_ & _ & _ & _ & Hclash).
    apply Hclash.
    + reflexivity.
    + left.
Defined.

(** X17. The handlers keep the items tidy. When the name, the link and the
    price of every item of the list are trimmed and not empty, the same
    holds of the list after [handleAddItem], after [handleSaveEdit], after
    [handleToggleBought] and after the removal of an id: no handler puts a
    blank or an untrimmed field into the list. *)
Theorem handlers_keep_tidy (now k : Z) (a : AppState) :
  Forall tidy (items a) →
  Forall tidy (items (handleAddItem now a))
  ∧ Forall tidy (items (handleSaveEdit k a))
  ∧ Forall tidy (items (handleToggleBought k a))
  ∧ Forall tidy (without k (items a)).
Proof.
  intros Ha. split_and!.
  - unfold handleAddItem. destruct (filled (formData a)) eqn:Hf; [|done].
    cbn [items set_items set_formData]. apply Forall_app. split; [done|].
    apply Forall_singleton. by apply filled_trimmed.
  - unfold handleSaveEdit. destruct (filled (editData a)) eqn:Hf; [|done].
    cbn [items set_items set_editData set_editingId].
    apply Forall_fmap. eapply Forall_impl; [exact Ha|].
    intros item Hitem. cbn. case_decide; [|done].
    by apply filled_trimmed.
  - unfold handleToggleBought. cbn [items set_items].
    apply Forall_fmap. eapply Forall_impl; [exact Ha|].
    intros item Hitem. cbn. by case_decide.
  - unfold without. apply Forall_forall.
    intros x [_ Hx]%list_elem_of_filter. revert x Hx. by apply Forall_forall.
Qed.

Lemma handlers_keep_tidy_witness :
  Forall tidy (items (handleAddItem 1700000000000
                        (typing_app (mkForm (lit " Lamp ")
                                            (lit "https://shop.example/lamp")
                                            (lit "40 ")))))
  ∧ Forall tidy (items (handleSaveEdit 1000
                          (typing_app (mkForm (lit " Lamp ")
                                         (lit "https://shop.example/lamp")
                                         (lit "40 ")))))
  ∧ Forall tidy (items (handleToggleBought 1000
                          (typing_app (mkForm (lit " Lamp ")
                                         (lit "https://shop.example/lamp")
                                         (lit "40 ")))))
  ∧ Forall tidy (without 1000
                   (items (typing_app (mkForm (lit " Lamp ")
                                         (lit "https://shop.example/lamp")
                                         (lit "40 "))))).
Proof.
  apply (handlers_keep_tidy 1700000000000 1000
           (typing_app (mkForm (lit " Lamp ")
                               (lit "https://shop.example/lamp")
                               (lit "40 ")))).
  apply Forall_singleton. repeat split; discriminate.
Defined.

Lemma same_id_same_item (l : list Item) (x y : Item) :
  NoDup (id <$> l) → x ∈ l → y ∈ l → id x = id y → x = y.
Proof.
  intros Hl Hx Hy Hid.
  apply list_elem_of_lookup in Hx as [i Hi], Hy as [j Hj].
  assert (i = j) as ->; [|congruence].
  eapply NoDup_lookup; [exact Hl| |];
    rewrite list_lookup_fmap; [by rewrite Hi | by rewrite Hj, Hid].
Qed.

(** X18. An edit that changes nothing. For a tidy item of a list without
    two items of one id, starting its edit and saving at once leaves the
    state as cancelling does: the list is the list from before, no edit is
    open and the edit data are blank. *)
Theorem edit_round_trip (item : Item) (a : AppState) :
  tidy item →
  item ∈ items a →
  NoDup (id <$> items a) →
  handleSaveEdit (id item) (handleStartEdit item a) = handleCancelEdit a
  ∧ items (handleSaveEdit (id item) (handleStartEdit item a)) = items a.
Proof.
  intros ([Hn Hn'] & [Hl Hl'] & [Hp Hp']) Hin Hnd.
  assert (filled (mkForm (name item) (link item) (price item)) = true) as Hf.
  { apply filled_spec. cbn [form_name form_link form_price].
    by rewrite Hn, Hl, Hp. }
  assert (items (handleSaveEdit (id item) (handleStartEdit item a)) = items a)
    as Hitems.
  { unfold handleSaveEdit, handleStartEdit.
    cbn [editData set_editData set_editingId items set_items]. rewrite Hf.
    cbn [items set_items set_editData set_editingId].
    rewrite <- (list_fmap_id (items a)) at 2. apply list_fmap_ext.
    intros n x Hx. case_decide as Hid; [|done].
    assert (x = item) as ->.
    { eapply same_id_same_item; [exact Hnd| |done..].
      apply list_elem_of_lookup. eauto. }
    unfold edited. cbn [form_name form_link form_price].
    rewrite Hn, Hl, Hp. apply item_eta. }
  split; [|done]. revert Hitems.
  unfold handleSaveEdit, handleStartEdit, handleCancelEdit.
  cbn [editData set_editData set_editingId items set_items]. rewrite Hf.
  destruct a as [l ld fd ei ed]. cbn. by intros ->.
Qed.

Lemma edit_round_trip_witness :
  handleSaveEdit 7 (handleStartEdit lamp (set_items [headphones; lamp]
                                            initial_app))
  = handleCancelEdit (set_items [headphones; lamp] initial_app)
  ∧ items (handleSaveEdit 7 (handleStartEdit lamp
                               (set_items [headphones; lamp] initial_app)))
    = [headphones; lamp].
Proof.
  apply (edit_round_trip lamp (set_items [headphones; lamp] initial_app)).
  - repeat split; discriminate.
  - right. left.
  - apply NoDup_cons. split; [|apply NoDup_singleton].
    intros [=]%list_elem_of_singleton.
Defined.

(** X19. An id no item has. When no item of the list has the id,
    [handleSaveEdit] leaves the list as it is, [handleToggleBought] leaves
    the whole state as it is, and the removal of the id removes nothing. *)
Theorem handlers_absent_id (k : Z) (a : AppState) :
  (∀ item, item ∈ items a → id item ≠ k) →
  items (handleSaveEdit k a) = items a
  ∧ handleToggleBought k a = a
  ∧ without k (items a) = items a.
Proof.
  intros Hk.
  assert (∀ f : Item → Item,
            (λ item, if decide (id item = k) then f item else item)
              <$> items a = items a) as Hmap.
  { intros f. rewrite <- (list_fmap_id (items a)) at 2.
    apply list_fmap_ext. intros n x Hx.
    rewrite decide_False; [done|]. apply Hk, list_elem_of_lookup. eauto. }
  split_and!.
  - unfold handleSaveEdit. destruct (filled (editData a)); [|done].
    cbn [items set_items set_editData set_editingId]. apply Hmap.
  - unfold handleToggleBought.
    rewrite (Hmap (λ item, mkItem (id item) (name item) (link item)
                                  (price item) (negb (bought item)))).
    apply set_items_same.
  - unfold without. clear Hmap. revert Hk. generalize (items a).
    intros l. induction l as [|x l IH]; intros Hk; [done|].
    rewrite filter_cons_True by (apply Hk; left).
    f_equal. apply IH. intros y Hy. apply Hk. by right.
Qed.

Lemma handlers_absent_id_witness :
  items (handleSaveEdit 5 editing_app) = items editing_app
  ∧ handleToggleBought 5 editing_app = editing_app
  ∧ without 5 (items editing_app) = items editing_app.
Proof.
  apply (handlers_absent_id 5 editing_app).
  intros item [->|[->|[]%elem_of_nil]%elem_of_cons]%elem_of_cons;
    discriminate.
Defined.

(** X20. Typing and submitting. Whatever the form held, after a name, a
    link and a price none of which is blank are typed into it,
    [handleAddItem] appends the item of these values, trimmed, with the
    time of the call as id and not bought, and leaves the form blank. *)
Theorem type_and_submit (now : Z) (n l p : jsstring) (a : AppState) :
  trim n ≠ [] → trim l ≠ [] → trim p ≠ [] →
  handleAddItem now
    (handleInputChange FPrice p
       (handleInputChange FLink l (handleInputChange FName n a)))
  = set_formData blank_form
      (set_items (items a ++ [mkItem now (trim n) (trim l) (trim p) false]) a).
Proof.
  intros Hn Hl Hp. unfold handleAddItem, handleInputChange.
  cbn [formData set_formData set_field form_name form_link form_price
       items set_items].
  assert (filled (mkForm n l p) = true) as ->; [by apply filled_spec|].
  by destruct a.
Qed.

Lemma type_and_submit_witness :
  handleAddItem 1700000000000
    (handleInputChange FPrice (lit "40 ")
       (handleInputChange FLink (lit "https://shop.example/lamp")
          (handleInputChange FName (lit " Lamp ") (typing_app blank_form))))
  = set_formData blank_form
      (set_items [headphones;
                  mkItem 1700000000000 (lit "Lamp")
                         (lit "https://shop.example/lamp") (lit "40") false]
         (typing_app blank_form)).
Proof.
  apply (type_and_submit 1700000000000 (lit " Lamp ")
           (lit "https://shop.example/lamp") (lit "40 ")
           (typing_app blank_form)); discriminate.
Defined.

(** X21. Editing one field. After the edit of an item is started, a new
    name that is not blank is typed and the edit is saved, the item of a
    list without two items of one id has the new name, trimmed, and its
    link, price, id and bought flag from before, provided it was tidy; the
    other items are as before. *)
Theorem rename_item (item : Item) (n : jsstring) (a : AppState) :
  tidy item →
  item ∈ items a →
  NoDup (id <$> items a) →
  trim n ≠ [] →
  items (handleSaveEdit (id item)
           (handleEditChange FName n (handleStartEdit item a)))
  = (λ x, if decide (x = item)
          then mkItem (id item) (trim n) (link item) (price item)
                      (bought item)
          else x) <$> items a.
Proof.
  intros (_ & [Hl Hl'] & [Hp Hp']) Hin Hnd Hn.
  unfold handleSaveEdit, handleEditChange, handleStartEdit.
  cbn [editData set_editData set_editingId set_field form_name form_link
       form_price items set_items].
  assert (filled (mkForm n (link item) (price item)) = true) as ->.
  { apply filled_spec. cbn [form_name form_link form_price].
    by rewrite Hl, Hp. }
  cbn [items set_items set_editData set_editingId].
  apply list_fmap_ext. intros i x Hx.
  assert (x ∈ items a) as Hxin by (apply list_elem_of_lookup; eauto).
  destruct (decide (x = item)) as [->|Hne].
  - rewrite decide_True by done. unfold edited.
    cbn [form_name form_link form_price]. by rewrite Hl, Hp.
  - rewrite decide_False; [done|].
    intros Hid. apply Hne. by eapply same_id_same_item.
Qed.

Lemma rename_item_witness :
  items (handleSaveEdit 7
           (handleEditChange FName (lit " Desk lamp ")
              (handleStartEdit lamp
                 (set_items [headphones; lamp] initial_app))))
  = [headphones;
     mkItem 7 (lit "Desk lamp") (link lamp) (price lamp) false].
Proof.
  apply (rename_item lamp (lit " Desk lamp ")
           (set_items [headphones; lamp] initial_app)).
  - repeat split; discriminate.
  - right. left.
  - apply NoDup_cons. split; [|apply NoDup_singleton].
    intros [=]%list_elem_of_singleton.
  - discriminate.
Defined.

(** ** The total is a number *)

Lemma shr_1_nonneg mrs : 0 ≤ shr_m mrs → 0 ≤ shr_m (shr_1 mrs).
Proof. destruct mrs as [[|[p|p|]|[p|p|]] r s]; cbn; lia. Qed.

Lemma iter_shr_1_nonneg p mrs :
  0 ≤ shr_m mrs → 0 ≤ shr_m (SpecFloat.iter_pos shr_1 p mrs).
Proof.
  revert mrs. induction p as [p IH|p IH|]; intros mrs Hm; cbn.
  - by apply IH, IH, shr_1_nonneg.
  - by apply IH, IH.
  - by apply shr_1_nonneg.
Qed.

Lemma shr_fexp_nonneg m e l :
  0 ≤ m → 0 ≤ shr_m (fst (shr_fexp prec emax m e l)).
Proof.
  intros Hm. unfold shr_fexp, shr.
  assert (0 ≤ shr_m (shr_record_of_loc m l)) as Hr by by destruct l as [|[]].
  destruct (fexp prec emax _ - e)%Z; cbn [fst]; [done| |done].
  by apply iter_shr_1_nonneg.
Qed.

Lemma round_nearest_even_nonneg m l : 0 ≤ m → 0 ≤ round_nearest_even m l.
Proof.
  intros Hm. destruct l as [|[]]; cbn; [done| |done|lia].
  destruct (Z.even m); lia.
Qed.

(** Rounding what is not negative gives a Number that is a number and
    whose sign bit is clear. *)
Lemma binary_round_aux_number m e l :
  0 ≤ m →
  nonneg (binary_round_aux prec emax false m e l)
  ∧ is_number (binary_round_aux prec emax false m e l).
Proof.
  intros Hm. split; [apply binary_round_aux_nonneg|].
  unfold binary_round_aux, is_number.
  pose proof (shr_fexp_nonneg m e l Hm) as H1.
  destruct (shr_fexp prec emax m e l) as [mrs' e']. cbn [fst] in H1.
  pose proof (shr_fexp_nonneg _ e' loc_Exact
                (round_nearest_even_nonneg (shr_m mrs')
                   (loc_of_shr_record mrs') H1)) as H2.
  destruct (shr_fexp prec emax _ e' loc_Exact) as [mrs'' e''].
  cbn [fst] in H2.
  destruct (shr_m mrs''); [done| |lia].
  by destruct (_ <=? _).
Qed.

Lemma add_number x y :
  nonneg x → is_number x → nonneg y → is_number y →
  nonneg (add x y) ∧ is_number (add x y).
Proof.
  intros Hx Hx' Hy Hy'. split; [by apply add_nonneg|].
  destruct x as [sx|sx| |sx mx ex], y as [sy|sy| |sy my ey]; cbn in *;
    subst; try done.
  unfold binary_normalize, cond_Zopp.
  destruct (shl_align mx ex _) as [mx' ex'], (shl_align my ey _) as [my' ey'].
  cbn [fst]. change (Z.pos mx' + Z.pos my') with (Z.pos (mx' + my')).
  unfold binary_round.
  destruct (shl_align (mx' + my') _ _) as [mz ez].
  by apply binary_round_aux_number.
Qed.

Lemma of_decimal_number n k :
  nonneg (of_decimal n k) ∧ is_number (of_decimal n k).
Proof.
  split; [apply of_decimal_nonneg|].
  destruct n as [|p|p]; [done| |done]. unfold of_decimal, SFdiv.
  unfold SFdiv_core_binary.
  set (b := Z.to_pos (10 ^ Z.of_nat k)).
  set (m' := match _ with Z.pos _ => _ | _ => _ end).
  assert (0 ≤ m') as Hm'.
  { subst m'. destruct (_ - _ - _)%Z; [done| |done].
    by apply Z.shiftl_nonneg. }
  pose proof (Z.div_pos m' (Z.pos b) Hm' eq_refl) as Hq.
  unfold Z.div in Hq. destruct (Z.div_eucl m' (Z.pos b)) as [q r].
  by apply binary_round_aux_number.
Qed.

Lemma price_value_number item :
  nonneg (price_value item) ∧ is_number (price_value item).
Proof.
  split; [apply price_value_nonneg|].
  unfold price_value, parseFloat.
  destruct (span_digits _) as [ip r].
  set (fp := match r with 46%N :: r' => fst (span_digits r') | _ => [] end).
  assert (is_number
            (or_zero (of_decimal (digits_value (ip ++ fp)) (length fp))))
    as H.
  { destruct (of_decimal_number (digits_value (ip ++ fp)) (length fp))
      as [_ Hn].
    by destruct (of_decimal _ _). }
  by destruct ip, fp.
Qed.

(** X22. The total is never [NaN]. Whatever the prices, [calculateTotal]
    is a Number that is a number, and its sign bit is clear: 0, a number
    above 0, or the positive infinity. *)
Theorem calculateTotal_number (l : list Item) :
  match calculateTotal l with
  | S754_nan => False
  | S754_zero sx | S754_infinity sx | S754_finite sx _ _ => sx = false
  end.
Proof.
  assert (nonneg (calculateTotal l) ∧ is_number (calculateTotal l)) as [Hs Hn].
  { unfold calculateTotal.
    assert (nonneg zero ∧ is_number zero) as H by done.
    revert H. generalize zero.
    induction (filter _ l) as [|x l' IH]; intros q Hq; [done|].
    cbn. apply IH. destruct Hq, (price_value_number x).
    by apply add_number. }
  by destruct (calculateTotal l).
Qed.

(** ** Prices *)

Lemma isDigit_not_space c : isDigit c = true → isWhiteSpace c = false.
Proof.
  unfold isDigit, isWhiteSpace. intros [H1 H2]%andb_true_iff.
  apply N.leb_le in H1, H2.
  repeat (apply orb_false_iff; split);
    try (apply andb_false_iff; (left + right); apply N.leb_gt; lia);
    apply N.eqb_neq; lia.
Qed.

Lemma span_digits_all ds :
  Forall (λ c, isDigit c = true) ds → span_digits ds = (ds, []).
Proof.
  induction 1 as [|c ds Hc _ IH]; [done|]. cbn. by rewrite Hc, IH.
Qed.

Lemma trimStart_digits ds :
  Forall (λ c, isDigit c = true) ds → trimStart ds = ds.
Proof.
  destruct 1 as [|c ds Hc _]; [done|]. cbn.
  by rewrite (isDigit_not_space c Hc).
Qed.

Lemma or_zero_number x : nonneg x → is_number x → or_zero x = x.
Proof. by destruct x as [[]|[]| |[] m e]. Qed.

(** X23. Prices without a dot. Whatever else a price holds, currency
    signs, separators, letters or blanks, when it holds no dot its value is
    the Number of the integer that its digits spell, read in their order;
    it is 0 when it holds no digit. A character that is neither a digit nor
    a dot may be put into any price or taken out of it without changing
    the value. *)
Theorem price_value_digits :
  (∀ item, (∀ c, In c (price item) → c ≠ 46%N) →
     price_value item
     = of_decimal (digits_value (List.filter isDigit (price item))) 0)
  ∧ (∀ i n l b s1 c s2, isPriceChar c = false →
       price_value (mkItem i n l (s1 ++ c :: s2) b)
       = price_value (mkItem i n l (s1 ++ s2) b)).
Proof.
  split.
  - intros item Hdot. unfold price_value.
    assert (strip (price item) = List.filter isDigit (price item)) as ->.
    { unfold strip. apply filter_ext_in. intros c Hc. unfold isPriceChar.
      apply Hdot in Hc. apply N.eqb_neq in Hc. rewrite Hc. apply orb_false_r. }
    set (ds := List.filter isDigit (price item)).
    assert (Forall (λ c, isDigit c = true) ds) as Hds.
    { apply List.Forall_forall. intros c Hc. by apply filter_In in Hc as [_ ?]. }
    unfold parseFloat. rewrite trimStart_digits, span_digits_all by done.
    rewrite app_nil_r.
    destruct ds as [|d ds]; [done|].
    destruct (of_decimal_number (digits_value (d :: ds)) 0).
    by apply or_zero_number.
  - intros i n l b s1 c s2 Hc. unfold price_value, strip. cbn [price].
    rewrite !List.filter_app. cbn. by rewrite Hc.
Qed.

Lemma price_value_digits_witness :
  price_value headphones = of_decimal 1299 0.
Proof.
  destruct price_value_digits as [Hdigits _].
  apply (Hdigits headphones).
  intros c [<-|[<-|[<-|[<-|[<-|[<-|[]]]]]]]; discriminate.
Defined.

(** ** Startup with and without a migration *)

Section StartupMigrates.

Variable JSON_parse : jsstring → option (list Item).
Hypothesis JSON_parse_empty : JSON_parse [] = None.

(** X24. The first visit after the move to IndexedDB. With an empty store,
    a slot that holds the serialization of a list that is not empty, and an
    engine that fails nothing, startup and the save of its effect resolve:
    the store holds the list (put in order, by key), the list is in memory
    and no longer loading, and the slot is erased. *)
Theorem startup_migrates (w : World) (s : jsstring) (l : list Item) :
  store w = ∅ →
  serene w →
  legacy w = Some s → JSON_parse s = Some l → l ≠ [] →
  ∃ w', startup JSON_parse w = (Resolved tt, w')
        ∧ store w' = store_of_items l
        ∧ items (app w') = l
        ∧ isLoading (app w') = false
        ∧ legacy w' = None.
Proof.
  intros Hempty Hserene Hs Hl Hne. unfold startup, bind.
  destruct (getAllItems_serene w Hserene)
    as (w1 & Hload & Hs1 & (_ & Hleg1 & _ & _)).
  rewrite Hempty, getAll_empty in Hload.
  rewrite (loadItems_loaded _ _ _ _ Hload). cbn zeta. cbn [length Nat.eqb].
  set (a0 := set_items [] (set_isLoading true (app w))).
  destruct (saveAllItems_serene l (set_app a0 w1))
    as (w2 & Hsave & Hstore & Hs2 & [Hleg2 Happ2] & _); [done|].
  assert (truthy s = true) as Ht.
  { destruct s; [congruence|done]. }
  rewrite (migrate_imports JSON_parse (set_app a0 w1) w2 s l);
    [|by cbn; rewrite Hleg1|done..].
  match goal with |- context [saveItems ?w3] =>
    rewrite (saveItems_unfold w3);
    destruct (saveAllItems_serene (items (app w3)) w3)
      as (w' & Hsave' & Hstore' & _ & [Hleg' Happ'] & _) end; [done|].
  cbn [app set_console set_app isLoading set_isLoading items set_items
       set_legacy legacy] in *.
  rewrite Hsave'. exists w'.
  split_and!; [done|done|by rewrite Happ'..|by rewrite Hleg'].
Qed.

(** X25. No second import. With a store that holds a record, every record
    under its own id, and an engine that fails nothing, startup and the
    save of its effect leave the store and the slot as they are, whatever
    the slot holds, and put the collection of the store in memory. *)
Theorem startup_no_reimport (w : World) :
  keyed (store w) →
  serene w →
  getAll (store w) ≠ [] →
  ∃ w', startup JSON_parse w = (Resolved tt, w')
        ∧ store w' = store w
        ∧ items (app w') = getAll (store w)
        ∧ isLoading (app w') = false
        ∧ legacy w' = legacy w.
Proof.
  intros Hkeyed Hserene Hne. unfold startup, bind.
  destruct (getAllItems_serene w Hserene)
    as (w1 & Hload & Hs1 & (_ & Hleg1 & _ & _)).
  rewrite (loadItems_loaded _ _ _ _ Hload). cbn zeta.
  destruct (getAll (store w)) as [|x l] eqn:Hall; [done|].
  cbn [length Nat.eqb].
  match goal with |- context [saveItems ?w3] =>
    rewrite (saveItems_unfold w3);
    destruct (saveAllItems_serene (items (app w3)) w3)
      as (w' & Hsave' & Hstore' & _ & [Hleg' Happ'] & _) end; [done|].
  cbn [app set_console set_app isLoading set_isLoading items set_items
       set_legacy legacy] in *.
  rewrite Hsave'. exists w'.
  split_and!; [done| |by rewrite Happ'..|by rewrite Hleg'].
  rewrite Hstore', <- Hall. by apply store_of_items_getAll.
Qed.

End StartupMigrates.

Lemma startup_migrates_witness :
  ∃ w', startup sample_parse (legacy_world []) = (Resolved tt, w')
        ∧ store w' = store_of_items [headphones]
        ∧ items (app w') = [headphones]
        ∧ isLoading (app w') = false
        ∧ legacy w' = None.
Proof.
  apply (startup_migrates sample_parse eq_refl (legacy_world [])
           legacy_text [headphones]).
  - reflexivity.
  - reflexivity.
  - reflexivity.
  - reflexivity.
  - discriminate.
Defined.

Lemma startup_no_reimport_witness :
  ∃ w', startup sample_parse (stored_world [headphones] (Some legacy_text) [])
        = (Resolved tt, w')
        ∧ store w' = store (stored_world [headphones] (Some legacy_text) [])
        ∧ items (app w')
          = getAll (store (stored_world [headphones] (Some legacy_text) []))
        ∧ isLoading (app w') = false
        ∧ legacy w' = Some legacy_text.
Proof.
  apply (startup_no_reimport sample_parse
           (stored_world [headphones] (Some legacy_text) [])).
  - apply keyed_store_of_items.
  - reflexivity.
  - discriminate.
Defined.
